(** * Aggregation core of the QuantFrame analytics server (server.js)

    A shallow embedding of [getUserStatistics] and [getRivenStatistics] and
    the properties of their reports.

    Numbers.  [getAllTransactions] passes [price] and [quantity] through
    [Number], so in a record both are JavaScript numbers: IEEE 754 binary64
    values, NaN and the infinities included.  They are modelled by Rocq's
    primitive floats, whose operations are the binary64 ones; [+], [-] and
    [/] round as in the source, [=?] is [===] on numbers and [<?], [<=?]
    are [<] and [<=].

    Text.  A TEXT column read by better-sqlite3 is a string or [null]; it is
    modelled by [option string], [None] standing for [null]. *)

From Stdlib Require Import List ZArith String Bool Arith Lia Permutation Sorted.
From Stdlib Require Import Floats.
Import ListNotations.

Local Open Scope string_scope.
Local Open Scope list_scope.
Local Open Scope float_scope.

Set Warnings "-inexact-float".

(** ** Rows *)

(** One element of the array returned by [getAllTransactions].  The columns
    [id] and [created_at] are never read by the two reports and are left
    out. *)
Record tx : Type := mk_tx {
  ingame_name : option string;
  item_type : option string;
  item_name : option string;
  transaction_type : option string;
  price : float;
  quantity : float
}.



(** [v || d] for a nullable string [v]: [null] and the empty string are the
    falsy values. *)
Definition or_default (v : option string) (d : string) : string :=
  match v with
  | Some EmptyString => d
  | Some s => s
  | None => d
  end.

(** [v === lit] for a nullable string [v] and a string literal. *)
Definition strict_eq (v : option string) (lit : string) : bool :=
  match v with
  | Some s => String.eqb s lit
  | None => false
  end.

(** Equality of two nullable strings, as [Map] compares keys. *)
Definition nullable_eqb (a b : option string) : bool :=
  match a, b with
  | Some s, Some s' => String.eqb s s'
  | None, None => true
  | _, _ => false
  end.

(** ** The JavaScript [Map]: keyed entries in insertion order *)

Section JsMap.
Context {K V : Type}.
Variable K_eqb : K -> K -> bool.

Definition Map : Type := list (K * V).

Fixpoint has (k : K) (m : Map) : bool :=
  match m with
  | [] => false
  | (k', _) :: m' => if K_eqb k k' then true else has k m'
  end.

Fixpoint get (k : K) (m : Map) : option V :=
  match m with
  | [] => None
  | (k', v) :: m' => if K_eqb k k' then Some v else get k m'
  end.

(** [set] keeps the position of a key that is present and appends a new
    one. *)
Fixpoint set (k : K) (v : V) (m : Map) : Map :=
  match m with
  | [] => [(k, v)]
  | (k', v') :: m' =>
      if K_eqb k k' then (k', v) :: m' else (k', v') :: set k v m'
  end.
End JsMap.

Arguments Map : clear implicits.

(** ** Grouping (the first loop of both reports) *)

Section Grouping.
Context {K : Type}.
Variable K_eqb : K -> K -> bool.
Variable key_of : tx -> K.

(** The loop body:
    [if (!groups.has(key)) groups.set(key, []); groups.get(key).push(tx)].
    The array is held by the map, so the push is an update of the entry
    in place. *)
Definition group_step (groups : Map K (list tx)) (t : tx) : Map K (list tx) :=
  let key := key_of t in
  let groups := if has K_eqb key groups then groups else set K_eqb key [] groups in
  match get K_eqb key groups with
  | Some lst => set K_eqb key (lst ++ [t]) groups
  | None => groups
  end.

Definition group_by (txs : list tx) : Map K (list tx) :=
  fold_left group_step txs [].
End Grouping.

(** ** Per-group statistics (the second loop) *)

(** The four accumulators of the inner loop. *)
Record totals : Type := mk_totals {
  acc_revenue : float;
  acc_expense : float;
  acc_purchases : float;
  acc_sales : float
}.

Definition totals0 : totals := mk_totals 0 0 0 0.

Definition tally (acc : totals) (t : tx) : totals :=
  if strict_eq (transaction_type t) "sale" then
    mk_totals (acc_revenue acc + price t) (acc_expense acc)
              (acc_purchases acc) (acc_sales acc + quantity t)
  else if strict_eq (transaction_type t) "purchase" then
    mk_totals (acc_revenue acc) (acc_expense acc + price t)
              (acc_purchases acc + quantity t) (acc_sales acc)
  else acc.

(** An element of a report.  [key] is the property the source names [user]
    in one report and [riven] in the other. *)
Record stat (K : Type) : Type := mk_stat {
  key : K;
  profit : float;
  revenue : float;
  expense : float;
  number_of_trades : nat;
  purchases : float;
  sales : float;
  profit_margin : float
}.

Arguments mk_stat {K}.
Arguments key {K}.
Arguments profit {K}.
Arguments revenue {K}.
Arguments expense {K}.
Arguments number_of_trades {K}.
Arguments purchases {K}.
Arguments sales {K}.
Arguments profit_margin {K}.

(** The body of the loop over [groups.entries()], for one entry. *)
Definition summarise {K : Type} (entry : K * list tx) : stat K :=
  let (k, lst) := entry in
  let acc := fold_left tally lst totals0 in
  let revenue := acc_revenue acc in
  let expense := acc_expense acc in
  let profit := revenue - expense in
  let profit_margin := if revenue =? 0 then 0 else profit / revenue in
  mk_stat k profit revenue expense (List.length lst)
          (acc_purchases acc) (acc_sales acc) profit_margin.

(** [result.push(...)] once per entry, in the order of the map. *)
Definition collect {K : Type} (groups : Map K (list tx)) : list (stat K) :=
  fold_left (fun result entry => result ++ [summarise entry]) groups [].

(** ** Sorting *)

(** [Array.prototype.sort] with a comparator.  The sort is stable, and when
    the comparator is a consistent ordering its result is the one stable
    arrangement, which insertion from the right computes: [x] moves behind
    [y] only when [cmp x y > 0].  A comparator result of NaN counts as [0]
    ([0 <? NaN] is false).  When the comparator is not a consistent ordering
    (some profit is NaN) the language leaves the order to the
    implementation; the statements about order below are made for the other
    case. *)
Section Sort.
Context {A : Type}.
Variable cmp : A -> A -> float.

Fixpoint insert (x : A) (l : list A) : list A :=
  match l with
  | [] => [x]
  | y :: l' => if 0 <? cmp x y then y :: insert x l' else x :: l
  end.

Definition sort (l : list A) : list A := fold_right insert [] l.
End Sort.

(** The comparator [(a, b) => b.profit - a.profit]. *)
Definition by_profit_desc {K : Type} (a b : stat K) : float :=
  profit b - profit a.


(** ** The two reports *)

Definition user_key (t : tx) : string := or_default (ingame_name t) "Unknown".

Definition getUserStatistics (txs : list tx) : list (stat string) :=
  let groups := group_by String.eqb user_key txs in
  let result := collect groups in
  sort by_profit_desc result.

Definition is_riven (t : tx) : bool := strict_eq (item_type t) "riven".

Definition getRivenStatistics (all : list tx) : list (stat (option string)) :=
  let txs := filter is_riven all in
  let groups := group_by nullable_eqb item_name txs in
  let result := collect groups in
  sort by_profit_desc result.

(** ** Vocabulary of the statements *)

(** The records of [txs] that carry the grouping key [k], in input order. *)
Definition records_of {K : Type} (K_eqb : K -> K -> bool) (key_of : tx -> K)
    (k : K) (txs : list tx) : list tx :=
  filter (fun t => K_eqb (key_of t) k) txs.

Definition is_sale (t : tx) : bool := strict_eq (transaction_type t) "sale".
Definition is_purchase (t : tx) : bool := strict_eq (transaction_type t) "purchase".

(** Sum of a numeric field over a list of records, added up from [0] from
    left to right as the loop does. *)
Definition total (f : tx -> float) (l : list tx) : float :=
  fold_left (fun s t => s + f t) l 0.

(** The element of a report that carries key [k], if any. *)
Definition group_of {K : Type} (K_eqb : K -> K -> bool) (k : K)
    (report : list (stat K)) : option (stat K) :=
  find (fun g => K_eqb (key g) k) report.

(** Counters of a group that may be absent: an absent group has counted
    nothing. *)
Definition revenue_or0 {K : Type} (o : option (stat K)) : float :=
  match o with Some g => revenue g | None => 0 end.
Definition expense_or0 {K : Type} (o : option (stat K)) : float :=
  match o with Some g => expense g | None => 0 end.
Definition purchases_or0 {K : Type} (o : option (stat K)) : float :=
  match o with Some g => purchases g | None => 0 end.
Definition sales_or0 {K : Type} (o : option (stat K)) : float :=
  match o with Some g => sales g | None => 0 end.
Definition trades_or0 {K : Type} (o : option (stat K)) : nat :=
  match o with Some g => number_of_trades g | None => 0%nat end.

(** No element of a report has a profit that is NaN. *)
Definition no_nan_profit {K : Type} (report : list (stat K)) : Prop :=
  Forall (fun g => is_nan (profit g) = false) report.

(** The input of the example scenario. *)
Definition example_txs : list tx :=
  [ mk_tx (Some "A") None None (Some "sale") 100 1;
    mk_tx (Some "A") None None (Some "purchase") 40 1;
    mk_tx (Some "B") None None (Some "sale") 50 2 ].

Definition example_report : list (stat string) :=
  [ mk_stat "A" 60 100 40 2 1 1 0.6;
    mk_stat "B" 50 50 0 1 0 2 1 ].


(** ** Auxiliary definitions of the proofs *)

Definition keys {K V : Type} (m : Map K V) : list K := map fst m.

(** Number of records held by a map of groups. *)
Definition size {K : Type} (m : Map K (list tx)) : nat :=
  list_sum (map (fun e => List.length (snd e)) m).

(** [a] may stand before [b] in a report: [a.profit >= b.profit]. *)
Definition profit_ge {K : Type} (a b : stat K) : Prop :=
  (profit b <=? profit a) = true.


Section GroupingSpec.
Context {K : Type}.
Variable K_eqb : K -> K -> bool.
Variable key_of : tx -> K.

(** The loop body of the grouping, as one pass over the entries. *)
Fixpoint push (k : K) (t : tx) (m : Map K (list tx)) : Map K (list tx) :=
  match m with
  | [] => [(k, [t])]
  | (k', l) :: m' =>
      if K_eqb k k' then (k', l ++ [t]) :: m' else (k', l) :: push k t m'
  end.

(** What the map holds once the records [seen] have been pushed: one entry
    per key met, each holding exactly the records of that key, in order. *)
Definition grouped (m : Map K (list tx)) (seen : list tx) : Prop :=
  NoDup (keys m) /\
  (forall k l, In (k, l) m ->
     l <> [] /\ l = records_of K_eqb key_of k seen) /\
  (forall t, In t seen -> In (key_of t) (keys m)).

(** The three steps shared by the two reports. *)
Definition report (txs : list tx) : list (stat K) :=
  sort by_profit_desc (collect (group_by K_eqb key_of txs)).
End GroupingSpec.


(** ** Vocabulary of the further properties *)

Section FirstSeen.
Context {K : Type}.
Variable K_eqb : K -> K -> bool.

(** The distinct elements of [l], each at the place of its first
    occurrence. *)
Fixpoint first_seen (l : list K) : list K :=
  match l with
  | [] => []
  | k :: l' => k :: filter (fun k' => negb (K_eqb k' k)) (first_seen l')
  end.
End FirstSeen.


(** * Facts about the map operations *)

Section MapFacts.
Context {K V : Type}.
Variable K_eqb : K -> K -> bool.
Hypothesis K_eqb_spec : forall a b, K_eqb a b = true <-> a = b.

Lemma K_eqb_refl : forall a, K_eqb a a = true.
Proof. intros a. apply K_eqb_spec. reflexivity. Qed.

Lemma K_eqb_neq : forall a b, K_eqb a b = false <-> a <> b.
Proof.
  intros a b. split.
  - intros E H. apply K_eqb_spec in H. congruence.
  - intros N. destruct (K_eqb a b) eqn:E; [|reflexivity].
    apply K_eqb_spec in E. contradiction.
Qed.

Lemma has_keys : forall k (m : Map K V), has K_eqb k m = true <-> In k (keys m).
Proof.
  intros k m. induction m as [|[k' v] m IH]; simpl.
  - split; [discriminate | tauto].
  - destruct (K_eqb k k') eqn:E.
    + apply K_eqb_spec in E. subst. tauto.
    + apply K_eqb_neq in E. rewrite IH. split; [tauto|].
      intros [H|H]; [congruence | exact H].
Qed.

Lemma has_false_keys : forall k (m : Map K V),
  has K_eqb k m = false <-> ~ In k (keys m).
Proof.
  intros k m. rewrite <- has_keys.
  destruct (has K_eqb k m); split; congruence.
Qed.
End MapFacts.

(** * Facts about the grouping loop *)

Section GroupingFacts.
Context {K : Type}.
Variable K_eqb : K -> K -> bool.
Hypothesis K_eqb_spec : forall a b, K_eqb a b = true <-> a = b.
Variable key_of : tx -> K.

Lemma group_step_push : forall m t,
  group_step K_eqb key_of m t = push K_eqb (key_of t) t m.
Proof.
  intros m t. unfold group_step.
  induction m as [|[k' l] m IH]; simpl.
  - rewrite !(K_eqb_refl K_eqb K_eqb_spec). simpl.
    rewrite ?(K_eqb_refl K_eqb K_eqb_spec). reflexivity.
  - destruct (K_eqb (key_of t) k') eqn:E; simpl.
    + rewrite E. reflexivity.
    + revert IH.
      destruct (has K_eqb (key_of t) m) eqn:H; simpl; rewrite E;
        match goal with
        | |- context [get K_eqb (key_of t) ?x] =>
            destruct (get K_eqb (key_of t) x) eqn:G
        end; simpl; rewrite ?E; intros IH; f_equal; exact IH.
Qed.

Lemma size_push : forall k t m, size (push K_eqb k t m) = S (size m).
Proof.
  intros k t m. unfold size.
  induction m as [|[k' l] m IH]; simpl.
  - reflexivity.
  - destruct (K_eqb k k'); simpl.
    + rewrite length_app. simpl. lia.
    + rewrite IH. lia.
Qed.

Lemma keys_push : forall k t m,
  keys (push K_eqb k t m) = if has K_eqb k m then keys m else keys m ++ [k].
Proof.
  intros k t m. induction m as [|[k' l] m IH]; simpl.
  - reflexivity.
  - destruct (K_eqb k k'); simpl.
    + reflexivity.
    + rewrite IH. destruct (has K_eqb k m); reflexivity.
Qed.

Lemma NoDup_snoc : forall (A : Type) (l : list A) (a : A),
  NoDup l -> ~ In a l -> NoDup (l ++ [a]).
Proof.
  intros A l a Hl Ha. induction Hl as [|x l Hx Hl IH]; simpl.
  - constructor; [intros [] | constructor].
  - constructor.
    + rewrite in_app_iff. simpl. intros [H|[H|[]]].
      * contradiction.
      * subst. apply Ha. left. reflexivity.
    + apply IH. intros H. apply Ha. right. exact H.
Qed.

Lemma NoDup_keys_push : forall k t m,
  NoDup (keys m) -> NoDup (keys (push K_eqb k t m)).
Proof.
  intros k t m Hm. rewrite keys_push.
  destruct (has K_eqb k m) eqn:H; [exact Hm|].
  apply NoDup_snoc; [exact Hm|].
  apply (has_false_keys K_eqb K_eqb_spec). exact H.
Qed.

Lemma In_keys : forall k (l : list tx) (m : Map K (list tx)),
  In (k, l) m -> In k (keys m).
Proof. intros k l m H. apply (in_map fst) in H. exact H. Qed.

Lemma In_push : forall k0 t m k l,
  NoDup (keys m) -> In (k, l) (push K_eqb k0 t m) ->
  (k <> k0 /\ In (k, l) m) \/
  (k = k0 /\ exists l0, In (k0, l0) m /\ l = l0 ++ [t]) \/
  (k = k0 /\ ~ In k0 (keys m) /\ l = [t]).
Proof.
  intros k0 t m k l. induction m as [|[k' l'] m IH]; simpl; intros Hm H.
  - destruct H as [H|[]]. inversion H; subst. right. right. tauto.
  - inversion Hm as [|x xs Hk' Hm']; subst.
    destruct (K_eqb k0 k') eqn:E.
    + apply K_eqb_spec in E. subst k'. destruct H as [H|H].
      * inversion H; subst. right. left. split; [reflexivity|].
        exists l'. split; [left; reflexivity | reflexivity].
      * left. split; [|right; exact H].
        intros ->. apply Hk'. apply (In_keys _ _ _ H).
    + apply (K_eqb_neq K_eqb K_eqb_spec) in E. destruct H as [H|H].
      * inversion H; subst. left. split; [congruence | left; reflexivity].
      * destruct (IH Hm' H) as [[N I]|[[-> [l0 [I ->]]]|[-> [N ->]]]].
        -- left. split; [exact N | right; exact I].
        -- right. left. split; [reflexivity|]. exists l0.
           split; [right; exact I | reflexivity].
        -- right. right. split; [reflexivity|]. split; [|reflexivity].
           intros [F|F]; [congruence | contradiction].
Qed.

Lemma grouped_nil : grouped K_eqb key_of [] [].
Proof.
  split; [constructor|]. split; [intros k l [] | intros t []].
Qed.

Lemma records_of_snoc : forall k seen t,
  records_of K_eqb key_of k (seen ++ [t]) =
  records_of K_eqb key_of k seen ++
    (if K_eqb (key_of t) k then [t] else []).
Proof.
  intros k seen t. unfold records_of. rewrite filter_app. simpl.
  destruct (K_eqb (key_of t) k); reflexivity.
Qed.

Lemma records_of_nil_iff : forall k txs,
  records_of K_eqb key_of k txs = [] <-> ~ In k (map key_of txs).
Proof.
  intros k txs. unfold records_of. induction txs as [|t txs IH]; simpl.
  - tauto.
  - destruct (K_eqb (key_of t) k) eqn:E.
    + apply K_eqb_spec in E. split; [discriminate | intros H; tauto].
    + apply (K_eqb_neq K_eqb K_eqb_spec) in E. rewrite IH. tauto.
Qed.

Lemma records_of_In : forall k txs,
  records_of K_eqb key_of k txs <> [] -> In k (map key_of txs).
Proof.
  intros k txs. unfold records_of. induction txs as [|t txs IH]; simpl.
  - intros H. apply H. reflexivity.
  - destruct (K_eqb (key_of t) k) eqn:E.
    + intros _. left. apply K_eqb_spec. exact E.
    + intros H. right. apply IH. exact H.
Qed.

Lemma grouped_push : forall m seen t,
  grouped K_eqb key_of m seen -> grouped K_eqb key_of (push K_eqb (key_of t) t m) (seen ++ [t]).
Proof.
  intros m seen t (Hnd & Hent & Hcov). split; [|split].
  - apply NoDup_keys_push. exact Hnd.
  - intros k l H. rewrite records_of_snoc.
    destruct (In_push _ _ _ _ _ Hnd H)
      as [[N I]|[[-> [l0 [I ->]]]|[-> [N ->]]]].
    + destruct (Hent _ _ I) as [Hne Heq].
      assert (E : K_eqb (key_of t) k = false)
        by (apply (K_eqb_neq K_eqb K_eqb_spec); congruence).
      rewrite E, app_nil_r. split; assumption.
    + destruct (Hent _ _ I) as [Hne Heq].
      rewrite (K_eqb_refl K_eqb K_eqb_spec). split.
      * destruct l0; discriminate.
      * rewrite <- Heq. reflexivity.
    + rewrite (K_eqb_refl K_eqb K_eqb_spec). split; [discriminate|].
      assert (E : records_of K_eqb key_of (key_of t) seen = []).
      { apply records_of_nil_iff. intros F. apply N.
        apply in_map_iff in F. destruct F as [t' [Ek It']].
        rewrite <- Ek. apply Hcov. exact It'. }
      rewrite E. reflexivity.
  - intros t' H. rewrite keys_push. apply in_app_iff in H.
    destruct (has K_eqb (key_of t) m) eqn:Hh.
    + destruct H as [H|[<-|[]]].
      * apply Hcov. exact H.
      * apply (has_keys K_eqb K_eqb_spec). exact Hh.
    + apply in_app_iff. destruct H as [H|[<-|[]]].
      * left. apply Hcov. exact H.
      * right. left. reflexivity.
Qed.

Lemma grouped_fold : forall txs m seen,
  grouped K_eqb key_of m seen ->
  grouped K_eqb key_of (fold_left (group_step K_eqb key_of) txs m) (seen ++ txs).
Proof.
  induction txs as [|t txs IH]; intros m seen H; simpl.
  - rewrite app_nil_r. exact H.
  - rewrite group_step_push.
    replace (seen ++ t :: txs) with ((seen ++ [t]) ++ txs)
      by (rewrite <- app_assoc; reflexivity).
    apply IH. apply grouped_push. exact H.
Qed.

Lemma group_by_grouped : forall txs,
  grouped K_eqb key_of (group_by K_eqb key_of txs) txs.
Proof. intros txs. apply (grouped_fold txs [] []). apply grouped_nil. Qed.

Lemma group_by_entry : forall txs k l,
  In (k, l) (group_by K_eqb key_of txs) <->
  In k (map key_of txs) /\ l = records_of K_eqb key_of k txs.
Proof.
  intros txs k l. destruct (group_by_grouped txs) as (Hnd & Hent & Hcov).
  split.
  - intros H. destruct (Hent _ _ H) as [Hne Heq]. split; [|exact Heq].
    subst l. apply records_of_In. exact Hne.
  - intros [Hk ->]. apply in_map_iff in Hk. destruct Hk as [t [<- It]].
    specialize (Hcov _ It). apply in_map_iff in Hcov.
    destruct Hcov as [[k' l'] [Ek I]]. simpl in Ek. subst k'.
    destruct (Hent _ _ I) as [_ ->]. exact I.
Qed.

Lemma group_by_size : forall txs,
  size (group_by K_eqb key_of txs) = List.length txs.
Proof.
  intros txs. unfold group_by.
  assert (G : forall m, size (fold_left (group_step K_eqb key_of) txs m) =
                        (size m + List.length txs)%nat).
  { induction txs as [|t txs IH]; intros m; simpl.
    - lia.
    - rewrite IH, group_step_push, size_push. lia. }
  rewrite G. reflexivity.
Qed.
End GroupingFacts.


(** * Facts about the statistics of one group *)

Lemma sale_not_purchase : forall t, is_sale t = true -> is_purchase t = false.
Proof.
  intros t. unfold is_sale, is_purchase, strict_eq.
  destruct (transaction_type t) as [s|]; [|discriminate].
  intros H. apply String.eqb_eq in H. subst s. reflexivity.
Qed.

Lemma tally_other : forall acc t,
  is_sale t = false -> is_purchase t = false -> tally acc t = acc.
Proof.
  intros acc t Hs Hp. unfold tally.
  unfold is_sale in Hs. unfold is_purchase in Hp. rewrite Hs, Hp. reflexivity.
Qed.

(** One turn of the inner loop, accumulator by accumulator. *)
Lemma tally_fields : forall acc t,
  acc_revenue (tally acc t) =
    (if is_sale t then acc_revenue acc + price t else acc_revenue acc) /\
  acc_expense (tally acc t) =
    (if is_purchase t then acc_expense acc + price t else acc_expense acc) /\
  acc_purchases (tally acc t) =
    (if is_purchase t then acc_purchases acc + quantity t
     else acc_purchases acc) /\
  acc_sales (tally acc t) =
    (if is_sale t then acc_sales acc + quantity t else acc_sales acc).
Proof.
  intros acc t. unfold tally. fold (is_sale t). fold (is_purchase t).
  destruct (is_sale t) eqn:Hs.
  - rewrite (sale_not_purchase t Hs). repeat split.
  - destruct (is_purchase t); repeat split.
Qed.

(** The four accumulators after the inner loop: each is its start value
    with the prices, or quantities, of the sale, or purchase, records added
    one after the other. *)
Lemma fold_tally : forall l acc,
  fold_left tally l acc =
  mk_totals
    (fold_left (fun s t => s + price t) (filter is_sale l) (acc_revenue acc))
    (fold_left (fun s t => s + price t) (filter is_purchase l) (acc_expense acc))
    (fold_left (fun s t => s + quantity t) (filter is_purchase l)
               (acc_purchases acc))
    (fold_left (fun s t => s + quantity t) (filter is_sale l) (acc_sales acc)).
Proof.
  induction l as [|t l IH]; intros acc; cbn [fold_left filter].
  - destruct acc; reflexivity.
  - rewrite IH. unfold tally. fold (is_sale t). fold (is_purchase t).
    destruct (is_sale t) eqn:Hs.
    + rewrite (sale_not_purchase t Hs). reflexivity.
    + destruct (is_purchase t); reflexivity.
Qed.

Lemma key_summarise : forall (K : Type) (k : K) l, key (summarise (k, l)) = k.
Proof. reflexivity. Qed.

Lemma trades_summarise : forall (K : Type) (k : K) l,
  number_of_trades (summarise (k, l)) = List.length l.
Proof. reflexivity. Qed.

Lemma collect_map : forall (K : Type) (m : Map K (list tx)),
  collect m = map summarise m.
Proof.
  intros K m. unfold collect.
  assert (G : forall acc,
    fold_left (fun result entry => result ++ [summarise entry]) m acc =
    acc ++ map summarise m).
  { induction m as [|e m IH]; intros acc; simpl.
    - rewrite app_nil_r. reflexivity.
    - rewrite IH, <- app_assoc. reflexivity. }
  apply (G []).
Qed.

(** * Facts about the sort *)

Section SortFacts.
Context {A : Type}.
Variable cmp : A -> A -> float.

Lemma insert_perm : forall x l, Permutation (insert cmp x l) (x :: l).
Proof.
  intros x l. induction l as [|y l IH]; simpl.
  - apply Permutation_refl.
  - destruct (0 <? cmp x y).
    + apply perm_trans with (y :: x :: l).
      * apply perm_skip. exact IH.
      * apply perm_swap.
    + apply Permutation_refl.
Qed.

Lemma sort_perm : forall l, Permutation (sort cmp l) l.
Proof.
  induction l as [|x l IH]; simpl.
  - apply perm_nil.
  - apply perm_trans with (x :: sort cmp l).
    + apply insert_perm.
    + apply perm_skip. exact IH.
Qed.

Lemma sort_In : forall l x, In x (sort cmp l) <-> In x l.
Proof.
  intros l x. split; apply Permutation_in.
  - apply sort_perm.
  - apply Permutation_sym, sort_perm.
Qed.
End SortFacts.


(** * The order of binary64 numbers

    The comparator of the sort subtracts two profits and the sort looks at
    the sign of the difference.  This part relates that sign to the order
    of the two numbers, from the specification of the binary64 operations
    ([SpecFloat]): mantissas [m] and exponents [e] of finite numbers,
    [bounded] when [m] has at most 53 digits and exactly 53 unless [e] is
    the least exponent [-1074]. *)

Section SpecOrder.
Local Open Scope Z_scope.

Lemma digits2_bounds : forall m,
  2 ^ (Zpos (digits2_pos m) - 1) <= Zpos m < 2 ^ Zpos (digits2_pos m).
Proof.
  induction m as [m IH|m IH|]; cbn [digits2_pos].
  - rewrite Pos2Z.inj_succ.
    replace (Z.succ (Zpos (digits2_pos m)) - 1)
      with (Z.succ (Zpos (digits2_pos m) - 1)) by lia.
    rewrite !Z.pow_succ_r by lia. rewrite Pos2Z.inj_xI.
    set (a := 2 ^ (Zpos (digits2_pos m) - 1)) in *.
    set (b := 2 ^ Zpos (digits2_pos m)) in *. clearbody a b. lia.
  - rewrite Pos2Z.inj_succ.
    replace (Z.succ (Zpos (digits2_pos m)) - 1)
      with (Z.succ (Zpos (digits2_pos m) - 1)) by lia.
    rewrite !Z.pow_succ_r by lia. rewrite (Pos2Z.inj_xO m).
    set (a := 2 ^ (Zpos (digits2_pos m) - 1)) in *.
    set (b := 2 ^ Zpos (digits2_pos m)) in *. clearbody a b. lia.
  - simpl. lia.
Qed.

Lemma bounded_facts : forall m e,
  bounded prec emax m e = true ->
  -1074 <= e /\ Zpos m < 2 ^ 53 /\ (-1074 < e -> 2 ^ 52 <= Zpos m).
Proof.
  intros m e H. unfold bounded, canonical_mantissa, fexp, SpecFloat.emin in H.
  apply andb_true_iff in H. destruct H as [H _].
  apply Z.eqb_eq in H. unfold prec, emax in H.
  pose proof (digits2_bounds m) as [L U].
  set (d := Zpos (digits2_pos m)) in *.
  assert (Hd : d <= 53) by lia.
  split; [lia|]. split.
  - apply Z.lt_le_trans with (2 ^ d); [exact U|].
    apply Z.pow_le_mono_r; lia.
  - intros He. assert (d = 53) by lia.
    replace 52 with (d - 1) by lia. exact L.
Qed.

Lemma shl_align_value : forall m e e',
  e' <= e ->
  Zpos (fst (shl_align m e e')) = Zpos m * 2 ^ (e - e').
Proof.
  intros m e e' H. unfold shl_align.
  destruct (e' - e) as [|p|p] eqn:E.
  - replace (e - e') with 0 by lia. simpl. lia.
  - lia.
  - cbn [fst]. replace (e - e') with (Zpos p) by lia.
    pose proof (shift_pos_correct p m) as S. unfold shift_pos in S.
    rewrite S. rewrite Z.pow_pos_fold. lia.
Qed.

Lemma aligned_compare : forall mx ex my ey,
  bounded prec emax mx ex = true -> bounded prec emax my ey = true ->
  (Zpos mx * 2 ^ (ex - Z.min ex ey) ?= Zpos my * 2 ^ (ey - Z.min ex ey)) =
  match ex ?= ey with
  | Lt => Lt
  | Gt => Gt
  | Eq => Pos.compare_cont Eq mx my
  end.
Proof.
  intros mx ex my ey Hx Hy.
  destruct (bounded_facts _ _ Hx) as (Lx & Ux & Nx).
  destruct (bounded_facts _ _ Hy) as (Ly & Uy & Ny).
  assert (P : forall k, 0 < k -> 2 <= 2 ^ k).
  { intros k Hk. change 2 with (2 ^ 1) at 1. apply Z.pow_le_mono_r; lia. }
  destruct (Z.compare_spec ex ey) as [E|E|E].
  - subst ey. rewrite Z.min_id, Z.sub_diag, Z.pow_0_r, !Z.mul_1_r.
    reflexivity.
  - rewrite Z.min_l by lia. rewrite Z.sub_diag, Z.pow_0_r, Z.mul_1_r.
    apply Z.compare_lt_iff.
    specialize (Ny ltac:(lia)). specialize (P (ey - ex) ltac:(lia)).
    change (2 ^ 53) with (2 * 2 ^ 52) in Ux. nia.
  - rewrite Z.min_r by lia. rewrite Z.sub_diag, Z.pow_0_r, Z.mul_1_r.
    apply Z.compare_gt_iff.
    specialize (Nx ltac:(lia)). specialize (P (ex - ey) ltac:(lia)).
    change (2 ^ 53) with (2 * 2 ^ 52) in Uy. nia.
Qed.

Lemma shr_1_lower : forall k mrs,
  0 <= k -> 2 ^ (k + 1) <= shr_m mrs -> 2 ^ k <= shr_m (shr_1 mrs).
Proof.
  intros k [m r s] Hk H. cbn [shr_m] in H.
  assert (0 < 2 ^ k) by (apply Z.pow_pos_nonneg; lia).
  rewrite Z.add_1_r, Z.pow_succ_r in H by lia.
  destruct m as [|[p|p|]|p]; cbn [shr_1 shr_m]; lia.
Qed.

Lemma iter_shr_lower : forall n k mrs,
  0 <= k -> 2 ^ (k + Zpos n) <= shr_m mrs ->
  2 ^ k <= shr_m (iter_pos shr_1 n mrs).
Proof.
  induction n as [n IH|n IH|]; intros k mrs Hk H; cbn [iter_pos].
  - apply IH; [lia|]. apply IH; [lia|]. apply shr_1_lower; [lia|].
    replace (k + Zpos n + Zpos n + 1) with (k + Zpos n~1) by lia. exact H.
  - apply IH; [lia|]. apply IH; [lia|].
    replace (k + Zpos n + Zpos n) with (k + Zpos n~0) by lia. exact H.
  - apply shr_1_lower; assumption.
Qed.

Lemma shr_m_of_loc : forall m l, shr_m (shr_record_of_loc m l) = m.
Proof. intros m [|[]]; reflexivity. Qed.

Lemma shr_fexp_pos : forall m e l,
  0 < m -> -1074 <= e ->
  0 < shr_m (fst (shr_fexp prec emax m e l)) /\
  -1074 <= snd (shr_fexp prec emax m e l).
Proof.
  intros m e l Hm He. destruct m as [|p|p]; try lia.
  unfold shr_fexp, shr, fexp, SpecFloat.emin, prec, emax. cbn [Zdigits2].
  pose proof (digits2_bounds p) as [L _].
  set (d := Zpos (digits2_pos p)) in *.
  destruct (Z.max (d + e - 53) (3 - 1024 - 53) - e) as [|q|q] eqn:E;
    cbn [fst snd]; rewrite ?shr_m_of_loc; try lia.
  split; [|lia].
  assert (G : 2 ^ (d - 1 - Zpos q) <=
              shr_m (iter_pos shr_1 q (shr_record_of_loc (Zpos p) l))).
  { apply iter_shr_lower; [lia|]. rewrite shr_m_of_loc.
    replace (d - 1 - Zpos q + Zpos q) with (d - 1) by lia. exact L. }
  assert (0 < 2 ^ (d - 1 - Zpos q)) by (apply Z.pow_pos_nonneg; lia).
  lia.
Qed.

Lemma round_nearest_even_pos : forall m l, 0 < m -> 0 < round_nearest_even m l.
Proof.
  intros m [|[]] H; cbn [round_nearest_even]; try lia.
  destruct (Z.even m); lia.
Qed.

Lemma round_false_above_zero : forall m e l,
  0 < m -> -1074 <= e ->
  SFltb (S754_zero false) (binary_round_aux prec emax false m e l) = true.
Proof.
  intros m e l Hm He. unfold binary_round_aux.
  destruct (shr_fexp_pos m e l Hm He) as [H1 H2].
  destruct (shr_fexp prec emax m e l) as [mrs' e']. cbn [fst snd] in H1, H2.
  pose proof (round_nearest_even_pos _ (loc_of_shr_record mrs') H1) as H3.
  destruct (shr_fexp_pos _ e' loc_Exact H3 H2) as [H4 _].
  destruct (shr_fexp prec emax _ e' loc_Exact) as [mrs'' e''].
  cbn [fst] in H4.
  destruct (shr_m mrs'') as [|q|q]; try lia.
  destruct (e'' <=? emax - prec); reflexivity.
Qed.

Lemma round_true_not_above_zero : forall m e l,
  SFltb (S754_zero false) (binary_round_aux prec emax true m e l) = false.
Proof.
  intros m e l. unfold binary_round_aux.
  destruct (shr_fexp prec emax m e l) as [mrs' e'].
  destruct (shr_fexp prec emax _ e' loc_Exact) as [mrs'' e''].
  destruct (shr_m mrs'') as [|q|q]; try reflexivity.
  destruct (e'' <=? emax - prec); reflexivity.
Qed.

Lemma round_true_below_zero : forall m e l,
  0 < m -> -1074 <= e ->
  SFltb (binary_round_aux prec emax true m e l) (S754_zero false) = true.
Proof.
  intros m e l Hm He. unfold binary_round_aux.
  destruct (shr_fexp_pos m e l Hm He) as [H1 H2].
  destruct (shr_fexp prec emax m e l) as [mrs' e']. cbn [fst snd] in H1, H2.
  pose proof (round_nearest_even_pos _ (loc_of_shr_record mrs') H1) as H3.
  destruct (shr_fexp_pos _ e' loc_Exact H3 H2) as [H4 _].
  destruct (shr_fexp prec emax _ e' loc_Exact) as [mrs'' e''].
  cbn [fst] in H4.
  destruct (shr_m mrs'') as [|q|q]; try lia.
  destruct (e'' <=? emax - prec); reflexivity.
Qed.

Lemma round_false_not_below_zero : forall m e l,
  SFltb (binary_round_aux prec emax false m e l) (S754_zero false) = false.
Proof.
  intros m e l. unfold binary_round_aux.
  destruct (shr_fexp prec emax m e l) as [mrs' e'].
  destruct (shr_fexp prec emax _ e' loc_Exact) as [mrs'' e''].
  destruct (shr_m mrs'') as [|q|q]; try reflexivity.
  destruct (e'' <=? emax - prec); reflexivity.
Qed.

Lemma shl_align_fexp_emin : forall p e mz ez,
  -1074 <= e ->
  shl_align p e (fexp prec emax (Zpos (digits2_pos p) + e)) = (mz, ez) ->
  -1074 <= ez.
Proof.
  intros p e mz ez He E. unfold shl_align in E.
  destruct (fexp prec emax (Zpos (digits2_pos p) + e) - e) eqn:F;
    inversion E; subst; try lia.
  unfold fexp, SpecFloat.emin, prec, emax. lia.
Qed.

Lemma normalize_below_zero : forall M e,
  -1074 <= e ->
  SFltb (binary_normalize prec emax M e false) (S754_zero false) = (M <? 0).
Proof.
  intros M e He. destruct M as [|p|p]; cbn [binary_normalize].
  - reflexivity.
  - unfold binary_round.
    destruct (shl_align p e _) as [mz ez].
    apply round_false_not_below_zero.
  - unfold binary_round.
    destruct (shl_align p e _) as [mz ez] eqn:E.
    apply round_true_below_zero; [lia|].
    apply (shl_align_fexp_emin p e mz ez He E).
Qed.

Lemma normalize_above_zero : forall M e,
  -1074 <= e ->
  SFltb (S754_zero false) (binary_normalize prec emax M e false) = (0 <? M).
Proof.
  intros M e He. destruct M as [|p|p]; cbn [binary_normalize].
  - reflexivity.
  - unfold binary_round.
    destruct (shl_align p e _) as [mz ez] eqn:E.
    apply round_false_above_zero; [lia|].
    apply (shl_align_fexp_emin p e mz ez He E).
  - unfold binary_round.
    destruct (shl_align p e _) as [mz ez].
    apply round_true_not_above_zero.
Qed.

Lemma SFsub_pos_ltb : forall x y,
  valid_binary x = true -> valid_binary y = true ->
  SFltb (S754_zero false) (SF64sub y x) = SFltb x y.
Proof.
  intros [sx|sx| |sx mx ex] [sy|sy| |sy my ey] Hx Hy;
    try (destruct sx; reflexivity);
    try (destruct sy; reflexivity);
    try (destruct sx, sy; reflexivity);
    try reflexivity.
  cbn [SpecFloat.valid_binary] in Hx, Hy.
  destruct (bounded_facts _ _ Hx) as (Lx & _).
  destruct (bounded_facts _ _ Hy) as (Ly & _).
  unfold SF64sub, SFsub.
  rewrite normalize_above_zero by lia.
  rewrite !shl_align_value by lia.
  rewrite (Z.min_comm ey ex).
  pose proof (aligned_compare mx ex my ey Hx Hy) as C.
  set (X := Zpos mx * 2 ^ (ex - Z.min ex ey)) in *.
  set (Y := Zpos my * 2 ^ (ey - Z.min ex ey)) in *.
  assert (0 < X) by (subst X; apply Z.mul_pos_pos; [lia | apply Z.pow_pos_nonneg; lia]).
  assert (0 < Y) by (subst Y; apply Z.mul_pos_pos; [lia | apply Z.pow_pos_nonneg; lia]).
  clearbody X Y. unfold SFltb, SFcompare.
  destruct sx, sy; cbn [cond_Zopp]; cbv iota.
  - destruct (ex ?= ey); cbv iota.
    + rewrite <- C. destruct (Z.compare_spec X Y); cbn [CompOpp]; cbv iota;
        first [apply Z.ltb_lt; lia | apply Z.ltb_ge; lia].
    + pose proof (proj1 (Z.compare_lt_iff X Y) C). apply Z.ltb_ge. lia.
    + pose proof (proj1 (Z.compare_gt_iff X Y) C). apply Z.ltb_lt. lia.
  - apply Z.ltb_lt. lia.
  - apply Z.ltb_ge. lia.
  - destruct (ex ?= ey); cbv iota.
    + rewrite <- C. destruct (Z.compare_spec X Y); cbv iota;
        first [apply Z.ltb_lt; lia | apply Z.ltb_ge; lia].
    + pose proof (proj1 (Z.compare_lt_iff X Y) C). apply Z.ltb_lt. lia.
    + pose proof (proj1 (Z.compare_gt_iff X Y) C). apply Z.ltb_ge. lia.
Qed.
Lemma SFsub_neg_ltb : forall x y,
  valid_binary x = true -> valid_binary y = true ->
  SFltb (SF64sub y x) (S754_zero false) = SFltb y x.
Proof.
  intros [sx|sx| |sx mx ex] [sy|sy| |sy my ey] Hx Hy;
    try (destruct sx; reflexivity);
    try (destruct sy; reflexivity);
    try (destruct sx, sy; reflexivity);
    try reflexivity.
  cbn [SpecFloat.valid_binary] in Hx, Hy.
  destruct (bounded_facts _ _ Hx) as (Lx & _).
  destruct (bounded_facts _ _ Hy) as (Ly & _).
  unfold SF64sub, SFsub.
  rewrite normalize_below_zero by lia.
  rewrite !shl_align_value by lia.
  pose proof (aligned_compare my ey mx ex Hy Hx) as C.
  set (X := Zpos mx * 2 ^ (ex - Z.min ey ex)) in *.
  set (Y := Zpos my * 2 ^ (ey - Z.min ey ex)) in *.
  assert (0 < X) by (subst X; apply Z.mul_pos_pos; [lia | apply Z.pow_pos_nonneg; lia]).
  assert (0 < Y) by (subst Y; apply Z.mul_pos_pos; [lia | apply Z.pow_pos_nonneg; lia]).
  clearbody X Y. unfold SFltb, SFcompare.
  destruct sx, sy; cbn [cond_Zopp]; cbv iota.
  - destruct (ey ?= ex); cbv iota.
    + rewrite <- C. destruct (Z.compare_spec Y X); cbn [CompOpp]; cbv iota;
        first [apply Z.ltb_lt; lia | apply Z.ltb_ge; lia].
    + pose proof (proj1 (Z.compare_lt_iff Y X) C). apply Z.ltb_ge. lia.
    + pose proof (proj1 (Z.compare_gt_iff Y X) C). apply Z.ltb_lt. lia.
  - apply Z.ltb_ge. lia.
  - apply Z.ltb_lt. lia.
  - destruct (ey ?= ex); cbv iota.
    + rewrite <- C. destruct (Z.compare_spec Y X); cbv iota;
        first [apply Z.ltb_lt; lia | apply Z.ltb_ge; lia].
    + pose proof (proj1 (Z.compare_lt_iff Y X) C). apply Z.ltb_lt. lia.
    + pose proof (proj1 (Z.compare_gt_iff Y X) C). apply Z.ltb_ge. lia.
Qed.
End SpecOrder.

Lemma SFcompare_antisym : forall x y,
  SFcompare y x = option_map CompOpp (SFcompare x y).
Proof.
  intros [sx|sx| |sx mx ex] [sy|sy| |sy my ey]; cbn [SFcompare option_map];
    try (destruct sx; reflexivity);
    try (destruct sy; reflexivity);
    try (destruct sx, sy; reflexivity);
    try reflexivity.
  rewrite (Z.compare_antisym ex ey).
  pose proof (Pos.compare_cont_antisym mx my Eq) as A.
  cbn [CompOpp] in A. rewrite <- A.
  destruct sx, sy, (ex ?= ey)%Z; cbn [CompOpp]; try reflexivity;
    destruct (Pos.compare_cont Eq mx my); reflexivity.
Qed.

Lemma sub_pos_ltb : forall x y : float, (0 <? y - x)%float = (x <? y)%float.
Proof.
  intros x y. rewrite !ltb_spec, sub_spec.
  change (Prim2SF 0) with (S754_zero false).
  apply SFsub_pos_ltb; apply Prim2SF_valid.
Qed.

Lemma sub_neg_ltb : forall x y : float, (y - x <? 0)%float = (y <? x)%float.
Proof.
  intros x y. rewrite !ltb_spec, sub_spec.
  change (Prim2SF 0) with (S754_zero false).
  apply SFsub_neg_ltb; apply Prim2SF_valid.
Qed.

Lemma is_nan_spec : forall x : float,
  is_nan x = false -> Prim2SF x <> S754_nan.
Proof.
  intros x H E. unfold is_nan in H. rewrite eqb_spec, E in H. discriminate.
Qed.

Lemma SFcompare_None : forall x y,
  SFcompare x y = None -> x = S754_nan \/ y = S754_nan.
Proof.
  intros [sx|sx| |sx mx ex] [sy|sy| |sy my ey] H; cbn [SFcompare] in H;
    try discriminate; tauto.
Qed.

Lemma not_ltb_leb : forall x y : float,
  is_nan x = false -> is_nan y = false ->
  (x <? y)%float = false -> (y <=? x)%float = true.
Proof.
  intros x y Hx Hy. apply is_nan_spec in Hx. apply is_nan_spec in Hy.
  rewrite ltb_spec, leb_spec. unfold SFltb, SFleb.
  rewrite (SFcompare_antisym (Prim2SF x) (Prim2SF y)).
  destruct (SFcompare (Prim2SF x) (Prim2SF y)) as [[]|] eqn:E;
    cbn [option_map CompOpp]; try reflexivity; try discriminate.
  intros _. destruct (SFcompare_None _ _ E); contradiction.
Qed.

Lemma ltb_leb : forall x y : float, (x <? y)%float = true -> (x <=? y)%float = true.
Proof.
  intros x y. rewrite ltb_spec, leb_spec. unfold SFltb, SFleb.
  destruct (SFcompare _ _) as [[]|]; congruence.
Qed.

Lemma SFleb_trans : forall x y z,
  SFleb x y = true -> SFleb y z = true -> SFleb x z = true.
Proof.
  intros [sx|sx| |sx mx ex] [sy|sy| |sy my ey] [sz|sz| |sz mz ez];
    unfold SFleb; cbn [SFcompare];
    try (destruct sx); try (destruct sy); try (destruct sz);
    try reflexivity; try discriminate;
    change (Pos.compare_cont Eq) with Pos.compare;
    destruct (Z.compare_spec ex ey); destruct (Z.compare_spec ey ez);
    destruct (Z.compare_spec ex ez); try lia; try reflexivity;
    try discriminate; subst;
    destruct (Pos.compare_spec mx my); destruct (Pos.compare_spec my mz);
    destruct (Pos.compare_spec mx mz); cbn [CompOpp];
    try lia; try reflexivity; try discriminate.
Qed.

Lemma SFeqb_ltb : forall x y p,
  SFeqb x p = true -> SFeqb y p = true -> SFltb x y = false.
Proof.
  intros [sx|sx| |sx mx ex] [sy|sy| |sy my ey] [sp|sp| |sp mp ep];
    unfold SFeqb, SFltb; cbn [SFcompare];
    try (destruct sx); try (destruct sy); try (destruct sp);
    try reflexivity; try discriminate;
    change (Pos.compare_cont Eq) with Pos.compare;
    destruct (Z.compare_spec ex ep); destruct (Z.compare_spec ey ep);
    destruct (Z.compare_spec ex ey); try lia; try reflexivity;
    try discriminate; subst;
    destruct (Pos.compare_spec mx mp); destruct (Pos.compare_spec my mp);
    destruct (Pos.compare_spec mx my); cbn [CompOpp];
    try lia; try reflexivity; try discriminate.
Qed.

Lemma leb_trans : forall x y z : float,
  (x <=? y)%float = true -> (y <=? z)%float = true -> (x <=? z)%float = true.
Proof. intros x y z. rewrite !leb_spec. apply SFleb_trans. Qed.

Lemma eqb_not_ltb : forall x y p : float,
  (x =? p)%float = true -> (y =? p)%float = true -> (x <? y)%float = false.
Proof. intros x y p. rewrite !eqb_spec, ltb_spec. apply SFeqb_ltb. Qed.


(** * The reports in descending order of profit *)

Section ProfitOrder.
Context {K : Type}.

(** The comparator asks to move [a] behind [b] exactly when the profit of
    [a] is less than the profit of [b]. *)
Lemma by_profit_desc_pos : forall a b : stat K,
  (0 <? by_profit_desc a b) = (profit a <? profit b).
Proof. intros a b. unfold by_profit_desc. apply sub_pos_ltb. Qed.

Lemma insert_HdRel : forall (y x : stat K) l,
  profit_ge y x -> HdRel profit_ge y l ->
  HdRel profit_ge y (insert by_profit_desc x l).
Proof.
  intros y x l Hx Hl. destruct l as [|z l]; simpl.
  - constructor. exact Hx.
  - destruct (0 <? by_profit_desc x z).
    + constructor. inversion Hl; assumption.
    + constructor. exact Hx.
Qed.

Lemma insert_sorted : forall (x : stat K) l,
  is_nan (profit x) = false -> no_nan_profit l ->
  Sorted profit_ge l -> Sorted profit_ge (insert by_profit_desc x l).
Proof.
  intros x l Hx Hl H. induction H as [|y l Hs IH Hy]; simpl.
  - repeat constructor.
  - inversion Hl as [|y' l' Ny Nl]; subst.
    destruct (0 <? by_profit_desc x y) eqn:E;
      rewrite by_profit_desc_pos in E.
    + constructor; [apply IH; exact Nl|].
      apply insert_HdRel; [|exact Hy].
      unfold profit_ge. apply ltb_leb. exact E.
    + constructor.
      * constructor; assumption.
      * constructor. unfold profit_ge. apply not_ltb_leb; assumption.
Qed.

Lemma no_nan_profit_perm : forall l l' : list (stat K),
  Permutation l l' -> no_nan_profit l -> no_nan_profit l'.
Proof.
  intros l l' P H. unfold no_nan_profit in *. rewrite Forall_forall in *.
  intros g Hg. apply H. apply (Permutation_in g (Permutation_sym P)). exact Hg.
Qed.

Lemma sort_sorted : forall l : list (stat K),
  no_nan_profit l -> Sorted profit_ge (sort by_profit_desc l).
Proof.
  induction l as [|x l IH]; intros H; simpl.
  - constructor.
  - inversion H as [|x' l' Nx Nl]; subst.
    apply insert_sorted; [exact Nx | | apply IH; exact Nl].
    apply (no_nan_profit_perm l); [|exact Nl].
    apply Permutation_sym, sort_perm.
Qed.


(** The same with the hypothesis on the sorted list, which has a NaN profit
    exactly when the list has one. *)
Lemma sorted_of_sort : forall l : list (stat K),
  no_nan_profit (sort by_profit_desc l) ->
  Sorted profit_ge (sort by_profit_desc l).
Proof.
  intros l H. apply sort_sorted.
  apply (no_nan_profit_perm (sort by_profit_desc l)); [|exact H].
  apply sort_perm.
Qed.
End ProfitOrder.


(** * Facts about a report, for any grouping key *)

Section ReportFacts.
Context {K : Type}.
Variable K_eqb : K -> K -> bool.
Hypothesis K_eqb_spec : forall a b, K_eqb a b = true <-> a = b.
Variable key_of : tx -> K.

Lemma report_perm : forall txs,
  Permutation (report K_eqb key_of txs) (map summarise (group_by K_eqb key_of txs)).
Proof.
  intros txs. unfold report. rewrite collect_map. apply sort_perm.
Qed.

Lemma In_report : forall txs g,
  In g (report K_eqb key_of txs) <->
  exists k, In k (map key_of txs) /\
            g = summarise (k, records_of K_eqb key_of k txs).
Proof.
  intros txs g. unfold report. rewrite sort_In, collect_map, in_map_iff.
  split.
  - intros [[k l] [<- H]].
    apply (group_by_entry K_eqb K_eqb_spec) in H. destruct H as [Hk ->].
    exists k. split; [exact Hk | reflexivity].
  - intros [k [Hk ->]]. exists (k, records_of K_eqb key_of k txs).
    split; [reflexivity|].
    apply (group_by_entry K_eqb K_eqb_spec). split; [exact Hk | reflexivity].
Qed.

Lemma keys_summarise : forall m : Map K (list tx),
  map key (map summarise m) = keys m.
Proof.
  intros m. unfold keys. rewrite map_map. apply map_ext.
  intros [k l]. reflexivity.
Qed.

Lemma report_keys_NoDup : forall txs, NoDup (map key (report K_eqb key_of txs)).
Proof.
  intros txs.
  apply (Permutation_NoDup
           (l := map key (map summarise (group_by K_eqb key_of txs)))).
  - apply Permutation_sym, Permutation_map, report_perm.
  - rewrite keys_summarise.
    apply (group_by_grouped K_eqb K_eqb_spec key_of txs).
Qed.

Lemma report_trades : forall txs,
  list_sum (map number_of_trades (report K_eqb key_of txs)) = List.length txs.
Proof.
  intros txs.
  rewrite (Permutation_list_sum
             (Permutation_map number_of_trades (report_perm txs))).
  rewrite map_map, <- (group_by_size K_eqb K_eqb_spec key_of txs).
  unfold size. f_equal. apply map_ext. intros [k l]. reflexivity.
Qed.

Lemma group_of_In : forall (l : list (stat K)) g,
  NoDup (map key l) -> In g l -> group_of K_eqb (key g) l = Some g.
Proof.
  intros l g. unfold group_of. induction l as [|h l IH]; simpl.
  - intros _ [].
  - intros Hnd [->|H].
    + rewrite (K_eqb_refl K_eqb K_eqb_spec). reflexivity.
    + inversion Hnd as [|x xs Hh Hl]; subst.
      destruct (K_eqb (key h) (key g)) eqn:E.
      * apply K_eqb_spec in E. exfalso. apply Hh. rewrite E.
        apply in_map. exact H.
      * apply IH; assumption.
Qed.

Lemma group_of_absent : forall (l : list (stat K)) k,
  ~ In k (map key l) -> group_of K_eqb k l = None.
Proof.
  intros l k. unfold group_of. induction l as [|h l IH]; simpl.
  - reflexivity.
  - intros N. destruct (K_eqb (key h) k) eqn:E.
    + apply K_eqb_spec in E. tauto.
    + apply IH. tauto.
Qed.

Lemma filter_key_In : forall (l : list (stat K)) g,
  NoDup (map key l) -> In g l ->
  filter (fun h => K_eqb (key h) (key g)) l = [g].
Proof.
  intros l g. induction l as [|h l IH]; simpl.
  - intros _ [].
  - intros Hnd H. inversion Hnd as [|x xs Hh Hl]; subst.
    destruct H as [->|H].
    + rewrite (K_eqb_refl K_eqb K_eqb_spec). f_equal.
      clear IH Hnd Hl. induction l as [|h l IH]; simpl.
      * reflexivity.
      * destruct (K_eqb (key h) (key g)) eqn:E.
        -- apply K_eqb_spec in E. exfalso. apply Hh. left. exact E.
        -- apply IH. intros F. apply Hh. right. exact F.
    + destruct (K_eqb (key h) (key g)) eqn:E.
      * apply K_eqb_spec in E. exfalso. apply Hh. rewrite E.
        apply in_map. exact H.
      * apply IH; assumption.
Qed.

Lemma filter_key_le1 : forall (l : list (stat K)) k,
  NoDup (map key l) ->
  (List.length (filter (fun h => K_eqb (key h) k) l) <= 1)%nat.
Proof.
  intros l k Hnd.
  destruct (filter (fun h => K_eqb (key h) k) l) as [|g r] eqn:E.
  - simpl. lia.
  - assert (Hg : In g (filter (fun h => K_eqb (key h) k) l))
      by (rewrite E; left; reflexivity).
    apply filter_In in Hg. destruct Hg as [Hg Hk].
    apply K_eqb_spec in Hk. subst k.
    rewrite (filter_key_In l g Hnd Hg) in E. inversion E. simpl. lia.
Qed.

Lemma report_keys : forall txs k,
  In k (map key (report K_eqb key_of txs)) <-> In k (map key_of txs).
Proof.
  intros txs k. rewrite in_map_iff. split.
  - intros [g [<- H]]. apply In_report in H. destruct H as [k' [Hk ->]].
    exact Hk.
  - intros H. exists (summarise (k, records_of K_eqb key_of k txs)).
    split; [reflexivity|]. apply In_report. exists k. tauto.
Qed.

Lemma group_of_report : forall txs k,
  In k (map key_of txs) ->
  group_of K_eqb k (report K_eqb key_of txs) =
  Some (summarise (k, records_of K_eqb key_of k txs)).
Proof.
  intros txs k H.
  apply (group_of_In (report K_eqb key_of txs)
           (summarise (k, records_of K_eqb key_of k txs))).
  - apply report_keys_NoDup.
  - apply In_report. exists k. tauto.
Qed.

Lemma group_of_report_absent : forall txs k,
  ~ In k (map key_of txs) -> group_of K_eqb k (report K_eqb key_of txs) = None.
Proof.
  intros txs k H. apply group_of_absent. rewrite report_keys. exact H.
Qed.
End ReportFacts.

Lemma nullable_eqb_spec : forall a b, nullable_eqb a b = true <-> a = b.
Proof.
  intros [a|] [b|]; simpl; split; try discriminate; try reflexivity.
  - intros H. apply String.eqb_eq in H. congruence.
  - intros H. inversion H. apply String.eqb_refl.
Qed.

Lemma getUserStatistics_report : forall txs,
  getUserStatistics txs = report String.eqb user_key txs.
Proof. reflexivity. Qed.

Lemma getRivenStatistics_report : forall all,
  getRivenStatistics all = report nullable_eqb item_name (filter is_riven all).
Proof. reflexivity. Qed.


(** * Facts about one record inside an input *)

Lemma fold_tally_skip : forall l1 t l2 acc,
  is_sale t = false -> is_purchase t = false ->
  fold_left tally (l1 ++ t :: l2) acc = fold_left tally (l1 ++ l2) acc.
Proof.
  intros l1 t l2 acc Hs Hp. rewrite !fold_left_app. simpl.
  rewrite (tally_other _ t Hs Hp). reflexivity.
Qed.

Lemma filter_middle : forall (p : tx -> bool) l1 t l2,
  filter p (l1 ++ t :: l2) =
  filter p l1 ++ (if p t then t :: filter p l2 else filter p l2).
Proof.
  intros p l1 t l2. rewrite filter_app. simpl.
  destruct (p t); reflexivity.
Qed.

Lemma records_of_filter : forall (K : Type) (K_eqb : K -> K -> bool)
    (key_of : tx -> K) (p : tx -> bool) k l,
  records_of K_eqb key_of k (filter p l) =
  filter (fun t => p t && K_eqb (key_of t) k) l.
Proof.
  intros K K_eqb key_of p k l. unfold records_of.
  induction l as [|t l IH]; simpl.
  - reflexivity.
  - destruct (p t); simpl.
    + rewrite IH. reflexivity.
    + exact IH.
Qed.

Section DirectionFacts.
Context {K : Type}.
Variable K_eqb : K -> K -> bool.
Hypothesis K_eqb_spec : forall a b, K_eqb a b = true <-> a = b.
Variable key_of : tx -> K.

(** Read through [group_of], the counters of a key are those of the records
    that carry it, whether a group exists for it or not. *)
Lemma group_of_counters : forall txs k,
  let o := group_of K_eqb k (report K_eqb key_of txs) in
  let g := summarise (k, records_of K_eqb key_of k txs) in
  revenue_or0 o = revenue g /\ expense_or0 o = expense g /\
  purchases_or0 o = purchases g /\ sales_or0 o = sales g /\
  trades_or0 o = number_of_trades g.
Proof.
  intros txs k. cbv zeta.
  destruct (records_of K_eqb key_of k txs) as [|r rs] eqn:E.
  - assert (N : ~ In k (map key_of txs))
      by (apply (records_of_nil_iff K_eqb K_eqb_spec); exact E).
    rewrite (group_of_report_absent K_eqb K_eqb_spec key_of txs k N).
    simpl. tauto.
  - assert (I : In k (map key_of txs)).
    { apply (records_of_In K_eqb K_eqb_spec). rewrite E. discriminate. }
    rewrite (group_of_report K_eqb K_eqb_spec key_of txs k I), E.
    simpl. tauto.
Qed.

Lemma report_other_direction : forall l1 t l2,
  is_sale t = false -> is_purchase t = false ->
  exists g',
    group_of K_eqb (key_of t) (report K_eqb key_of (l1 ++ t :: l2)) = Some g' /\
    let before := group_of K_eqb (key_of t) (report K_eqb key_of (l1 ++ l2)) in
    revenue g' = revenue_or0 before /\
    expense g' = expense_or0 before /\
    purchases g' = purchases_or0 before /\
    sales g' = sales_or0 before /\
    number_of_trades g' = S (trades_or0 before).
Proof.
  intros l1 t l2 Hs Hp.
  exists (summarise (key_of t,
                     records_of K_eqb key_of (key_of t) (l1 ++ t :: l2))).
  split.
  - apply (group_of_report K_eqb K_eqb_spec).
    rewrite map_app, in_app_iff. right. left. reflexivity.
  - cbv zeta.
    destruct (group_of_counters (l1 ++ l2) (key_of t))
      as (-> & -> & -> & -> & ->).
    unfold records_of. rewrite filter_middle, filter_app.
    rewrite (K_eqb_refl K_eqb K_eqb_spec).
    unfold summarise. rewrite (fold_tally_skip _ t _ _ Hs Hp). simpl.
    repeat split. rewrite !length_app. simpl. lia.
Qed.
End DirectionFacts.

Lemma user_key_nonempty : forall t, user_key t <> "".
Proof.
  intros t. unfold user_key, or_default.
  destruct (ingame_name t) as [[|c s]|]; discriminate.
Qed.


(** * The claims *)

(** C1: on the three records of the example scenario the by-actor report is
    the two-element list with "A" first (revenue 100, expense 40, profit 60,
    margin 0.6, 2 trades, 1 purchased, 1 sold) and "B" second (revenue 50,
    expense 0, profit 50, margin 1.0, 1 trade, 0 purchased, 2 sold). *)
Theorem C1_example_scenario :
  getUserStatistics example_txs = example_report.
Proof. reflexivity. Qed.

(** The statistics of a group are those of the records carrying its key. *)
Lemma user_group_shape : forall txs g,
  In g (getUserStatistics txs) ->
  exists k, In k (map user_key txs) /\
            g = summarise (k, records_of String.eqb user_key k txs).
Proof.
  intros txs g H. rewrite getUserStatistics_report in H.
  apply (In_report String.eqb String.eqb_eq) in H. exact H.
Qed.

Lemma riven_group_shape : forall all g,
  In g (getRivenStatistics all) ->
  exists k, In k (map item_name (filter is_riven all)) /\
            g = summarise (k, records_of nullable_eqb item_name k
                                (filter is_riven all)).
Proof.
  intros all g H. rewrite getRivenStatistics_report in H.
  apply (In_report nullable_eqb nullable_eqb_spec) in H. exact H.
Qed.

(** Both reports at once: a property of every [summarise (k, records)]
    holds of every element. *)
Ltac by_group_shape :=
  apply Forall_forall; intros ?g ?H;
  match goal with
  | H : In _ (getUserStatistics _) |- _ =>
      apply user_group_shape in H; destruct H as [?k [?Hk ->]]
  | H : In _ (getRivenStatistics _) |- _ =>
      apply riven_group_shape in H; destruct H as [?k [?Hk ->]]
  end;
  rewrite ?key_summarise.


Lemma summarise_conservation : forall (K : Type) (k : K) l,
  let g := summarise (k, l) in
  profit g = revenue g - expense g /\
  revenue g = total price (filter is_sale l) /\
  expense g = total price (filter is_purchase l).
Proof.
  intros K k l. cbv zeta. unfold summarise. rewrite fold_tally.
  cbn [profit revenue expense acc_revenue acc_expense totals0].
  repeat split.
Qed.

(** C2: in both reports every group has profit = revenue - expense, its
    revenue being the sum of price over the sale records of the group and
    its expense the sum of price over the purchase records of the group. *)
Theorem C2_conservation : forall txs,
  Forall (fun g =>
            profit g = revenue g - expense g /\
            revenue g = total price (filter is_sale
                          (records_of String.eqb user_key (key g) txs)) /\
            expense g = total price (filter is_purchase
                          (records_of String.eqb user_key (key g) txs)))
         (getUserStatistics txs) /\
  Forall (fun g =>
            profit g = revenue g - expense g /\
            revenue g = total price (filter is_sale
                          (records_of nullable_eqb item_name (key g)
                             (filter is_riven txs))) /\
            expense g = total price (filter is_purchase
                          (records_of nullable_eqb item_name (key g)
                             (filter is_riven txs))))
         (getRivenStatistics txs).
Proof.
  intros txs. split; by_group_shape; apply summarise_conservation.
Qed.


Lemma summarise_margin : forall (K : Type) (k : K) l,
  let g := summarise (k, l) in
  ((revenue g =? 0) = true ->
   profit_margin g = 0 /\ is_nan (profit_margin g) = false) /\
  ((revenue g =? 0) = false -> profit_margin g = profit g / revenue g).
Proof.
  intros K k l. cbv zeta. unfold summarise.
  cbn [profit revenue profit_margin].
  destruct (acc_revenue (fold_left tally l totals0) =? 0).
  - split; [intros _; split; reflexivity | discriminate].
  - split; [discriminate | reflexivity].
Qed.

(** C3: in both reports a group whose revenue is 0 (the test [revenue ===
    0] of the source) has profit_margin 0, whatever its expense: not NaN
    and not the quotient by zero; a group whose revenue is not 0 has
    profit_margin = profit / revenue. *)
Theorem C3_margin_guard : forall txs,
  Forall (fun g =>
            ((revenue g =? 0) = true ->
             profit_margin g = 0 /\ is_nan (profit_margin g) = false) /\
            ((revenue g =? 0) = false ->
             profit_margin g = profit g / revenue g))
         (getUserStatistics txs) /\
  Forall (fun g =>
            ((revenue g =? 0) = true ->
             profit_margin g = 0 /\ is_nan (profit_margin g) = false) /\
            ((revenue g =? 0) = false ->
             profit_margin g = profit g / revenue g))
         (getRivenStatistics txs).
Proof.
  intros txs. split; by_group_shape; apply summarise_margin.
Qed.

(** A lone purchase: revenue 0, expense 70, and a margin of 0, where the
    quotient -70 / 0 is minus infinity. *)
Lemma C3_margin_guard_witness :
  let g := mk_stat "A" (-70) 0 70 1 3 0 0 in
  getUserStatistics [mk_tx (Some "A") None None (Some "purchase") 70 3] = [g] /\
  profit_margin g = 0 /\ profit g / revenue g = neg_infinity.
Proof.
  cbv zeta. split; [reflexivity|]. split; [|reflexivity].
  pose proof (C3_margin_guard
                [mk_tx (Some "A") None None (Some "purchase") 70 3]) as [H _].
  inversion H as [|g l [H0 _] _]. subst. apply H0. reflexivity.
Defined.






(** C5: in both reports the number_of_trades fields add up to the number of
    records that pass the filter (all of them for the by-actor report, the
    riven ones for the by-subject report), each group counting exactly the
    records that carry its key. *)
Theorem C5_partition_completeness : forall txs,
  (list_sum (map number_of_trades (getUserStatistics txs)) = List.length txs /\
   Forall (fun g => number_of_trades g =
                    List.length (records_of String.eqb user_key (key g) txs))
          (getUserStatistics txs)) /\
  (list_sum (map number_of_trades (getRivenStatistics txs)) =
     List.length (filter is_riven txs) /\
   Forall (fun g => number_of_trades g =
                    List.length (records_of nullable_eqb item_name (key g)
                                   (filter is_riven txs)))
          (getRivenStatistics txs)).
Proof.
  intros txs. split; split.
  - apply (report_trades String.eqb String.eqb_eq).
  - by_group_shape. reflexivity.
  - apply (report_trades nullable_eqb nullable_eqb_spec).
  - by_group_shape. reflexivity.
Qed.

(** C6: every group of the by-subject report is computed from the riven
    records that carry its item name and from nothing else, and a record of
    another category leaves the whole report as it is without it, also when
    it shares its item name with riven records. *)
Theorem C6_category_restriction :
  (forall all,
     Forall (fun g =>
               g = summarise
                     (key g,
                      filter (fun t => is_riven t &&
                                       nullable_eqb (item_name t) (key g)) all) /\
               exists t, In t all /\ is_riven t = true /\ item_name t = key g)
            (getRivenStatistics all)) /\
  (forall l1 t l2,
     is_riven t = false ->
     getRivenStatistics (l1 ++ t :: l2) = getRivenStatistics (l1 ++ l2)).
Proof.
  split.
  - intros all. by_group_shape. split.
    + rewrite records_of_filter. reflexivity.
    + apply in_map_iff in Hk. destruct Hk as [t [Ek It]].
      apply filter_In in It. exists t. tauto.
  - intros l1 t l2 H. unfold getRivenStatistics.
    rewrite filter_middle, H, <- filter_app. reflexivity.
Qed.

(** An "item" record named like a riven one changes nothing. *)
Lemma C6_category_restriction_witness :
  let r := mk_tx (Some "A") (Some "riven") (Some "X") (Some "sale") 10 1 in
  let t := mk_tx (Some "B") (Some "item") (Some "X") (Some "sale") 99 4 in
  is_riven t = false /\
  getRivenStatistics ([r] ++ t :: []) = getRivenStatistics ([r] ++ []).
Proof.
  cbv zeta. split; [reflexivity|].
  apply (proj2 C6_category_restriction). reflexivity.
Defined.

(** C7: in the by-actor report a record whose actor is absent or empty is
    keyed "Unknown"; the report holds at most one group under that key, and
    that group holds every such record of the input. *)
Theorem C7_missing_actor :
  (forall t, ingame_name t = None \/ ingame_name t = Some "" ->
             user_key t = "Unknown") /\
  (forall txs,
     (List.length (filter (fun g => String.eqb (key g) "Unknown")
                          (getUserStatistics txs)) <= 1)%nat) /\
  (forall txs t,
     In t txs -> ingame_name t = None \/ ingame_name t = Some "" ->
     let members := records_of String.eqb user_key "Unknown" txs in
     In t members /\
     filter (fun g => String.eqb (key g) "Unknown") (getUserStatistics txs) =
       [summarise ("Unknown", members)]).
Proof.
  assert (U : forall t, ingame_name t = None \/ ingame_name t = Some "" ->
                        user_key t = "Unknown").
  { intros t [H|H]; unfold user_key; rewrite H; reflexivity. }
  split; [exact U|]. split.
  - intros txs. apply (filter_key_le1 String.eqb String.eqb_eq).
    apply (report_keys_NoDup String.eqb String.eqb_eq).
  - intros txs t It Ht. cbv zeta. split.
    + unfold records_of. apply filter_In. split; [exact It|].
      rewrite (U t Ht). reflexivity.
    + apply (filter_key_In String.eqb String.eqb_eq
               (getUserStatistics txs)
               (summarise ("Unknown",
                           records_of String.eqb user_key "Unknown" txs))).
      * apply (report_keys_NoDup String.eqb String.eqb_eq).
      * apply (In_report String.eqb String.eqb_eq). exists "Unknown".
        split; [|reflexivity].
        apply in_map_iff. exists t. split; [apply U; exact Ht | exact It].
Qed.

(** A null actor, a named one and an empty one: the first and the third
    share the group "Unknown". *)
Lemma C7_missing_actor_witness :
  let t1 := mk_tx None None None (Some "sale") 10 1 in
  let t2 := mk_tx (Some "A") None None (Some "sale") 20 1 in
  let t3 := mk_tx (Some "") None None (Some "purchase") 4 2 in
  filter (fun g => String.eqb (key g) "Unknown")
         (getUserStatistics [t1; t2; t3]) =
    [summarise ("Unknown", [t1; t3])].
Proof.
  cbv zeta.
  exact (proj2 (proj2 (proj2 C7_missing_actor)
                  [mk_tx None None None (Some "sale") 10 1;
                   mk_tx (Some "A") None None (Some "sale") 20 1;
                   mk_tx (Some "") None None (Some "purchase") 4 2]
                  (mk_tx (Some "") None None (Some "purchase") 4 2)
                  (or_intror (or_intror (or_introl eq_refl)))
                  (or_intror eq_refl))).
Defined.

(** C8: in both reports a record whose direction is neither "sale" nor
    "purchase" adds nothing to the revenue, expense, purchases and sales of
    the group of its key and adds one to that group's number_of_trades
    (compared with the report of the same input without the record, where a
    group that does not exist has counted nothing). *)
Theorem C8_other_direction :
  (forall l1 t l2,
     is_sale t = false -> is_purchase t = false ->
     exists g',
       group_of String.eqb (user_key t) (getUserStatistics (l1 ++ t :: l2)) =
         Some g' /\
       let before :=
         group_of String.eqb (user_key t) (getUserStatistics (l1 ++ l2)) in
       revenue g' = revenue_or0 before /\
       expense g' = expense_or0 before /\
       purchases g' = purchases_or0 before /\
       sales g' = sales_or0 before /\
       number_of_trades g' = S (trades_or0 before)) /\
  (forall l1 t l2,
     is_riven t = true -> is_sale t = false -> is_purchase t = false ->
     exists g',
       group_of nullable_eqb (item_name t) (getRivenStatistics (l1 ++ t :: l2)) =
         Some g' /\
       let before :=
         group_of nullable_eqb (item_name t) (getRivenStatistics (l1 ++ l2)) in
       revenue g' = revenue_or0 before /\
       expense g' = expense_or0 before /\
       purchases g' = purchases_or0 before /\
       sales g' = sales_or0 before /\
       number_of_trades g' = S (trades_or0 before)).
Proof.
  split.
  - intros l1 t l2 Hs Hp. rewrite !getUserStatistics_report.
    apply (report_other_direction String.eqb String.eqb_eq); assumption.
  - intros l1 t l2 Hr Hs Hp. rewrite !getRivenStatistics_report.
    rewrite filter_middle, Hr, filter_app.
    apply (report_other_direction nullable_eqb nullable_eqb_spec); assumption.
Qed.

(** A "gift" of actor "A" between a sale of "A" and a purchase of "B": the
    group "A" keeps the counters of its sale and counts two trades. *)
Lemma C8_other_direction_witness :
  let s := mk_tx (Some "A") None None (Some "sale") 100 1 in
  let t := mk_tx (Some "A") None None (Some "gift") 30 5 in
  let p := mk_tx (Some "B") None None (Some "purchase") 7 2 in
  exists g',
    group_of String.eqb "A" (getUserStatistics ([s] ++ t :: [p])) = Some g' /\
    revenue g' = 100 /\ expense g' = 0 /\ purchases g' = 0 /\ sales g' = 1 /\
    number_of_trades g' = 2%nat.
Proof.
  cbv zeta.
  destruct (proj1 C8_other_direction
              [mk_tx (Some "A") None None (Some "sale") 100 1]
              (mk_tx (Some "A") None None (Some "gift") 30 5)
              [mk_tx (Some "B") None None (Some "purchase") 7 2]
              eq_refl eq_refl) as [g' [Hg Hc]].
  exists g'. split; [exact Hg | exact Hc].
Defined.

(** C9, as the code has it: every key of the by-actor report is a non-empty
    string; every key of the by-subject report is the item name of a riven
    record of the input, taken as it is with no placeholder, hence a
    non-empty string whenever the item name of every riven record is one. *)
Theorem C9_group_keys :
  (forall txs, Forall (fun g => key g <> "") (getUserStatistics txs)) /\
  (forall txs,
     Forall (fun g => exists t, In t txs /\ is_riven t = true /\
                                key g = item_name t)
            (getRivenStatistics txs)) /\
  (forall txs,
     (forall t, In t txs -> is_riven t = true ->
                exists s, item_name t = Some s /\ s <> "") ->
     Forall (fun g => exists s, key g = Some s /\ s <> "")
            (getRivenStatistics txs)).
Proof.
  assert (R : forall txs,
    Forall (fun g => exists t, In t txs /\ is_riven t = true /\
                               key g = item_name t)
           (getRivenStatistics txs)).
  { intros txs. by_group_shape.
    apply in_map_iff in Hk. destruct Hk as [t [Ek It]].
    apply filter_In in It. exists t. split; [tauto|]. split; [tauto|].
    symmetry. exact Ek. }
  split; [|split].
  - intros txs. by_group_shape.
    apply in_map_iff in Hk. destruct Hk as [t [<- _]].
    apply user_key_nonempty.
  - exact R.
  - intros txs H. eapply Forall_impl; [|apply R].
    intros g [t [It [Hr ->]]]. apply H; assumption.
Qed.

Lemma C9_group_keys_witness :
  let r := mk_tx None (Some "riven") (Some "Rubico") (Some "sale") 10 1 in
  Forall (fun g => exists s, key g = Some s /\ s <> "")
         (getRivenStatistics [r]).
Proof.
  cbv zeta. apply (proj2 (proj2 C9_group_keys)).
  intros t [<-|[]] _. exists "Rubico". split; [reflexivity | discriminate].
Defined.

(** C9 as stated fails on the by-subject report: a riven record whose item
    name is null yields the key null, one whose item name is empty the key
    "". *)
Lemma C9_riven_key_counterexample :
  let r1 := mk_tx (Some "A") (Some "riven") None (Some "sale") 10 1 in
  let r2 := mk_tx (Some "A") (Some "riven") (Some "") (Some "sale") 5 1 in
  map key (getRivenStatistics [r1; r2]) = [None; Some ""] /\
  ~ Forall (fun g => exists s, key g = Some s /\ s <> "")
           (getRivenStatistics [r1; r2]).
Proof.
  cbv zeta. split; [reflexivity|].
  intros H. inversion H as [|g l [s [Hs _]] _]. subst. discriminate Hs.
Qed.

(** C10: in both reports no two elements carry the same key. *)
Theorem C10_distinct_keys : forall txs,
  NoDup (map key (getUserStatistics txs)) /\
  NoDup (map key (getRivenStatistics txs)).
Proof.
  intros txs. split.
  - apply (report_keys_NoDup String.eqb String.eqb_eq).
  - apply (report_keys_NoDup nullable_eqb nullable_eqb_spec).
Qed.


(** * Further properties of the reports *)

Section GroupBySpec.
Context {K : Type}.
Variable K_eqb : K -> K -> bool.
Hypothesis K_eqb_spec : forall a b, K_eqb a b = true <-> a = b.
Variable key_of : tx -> K.

Lemma has_push : forall k t m k',
  has K_eqb k' (push K_eqb k t m) = has K_eqb k' m || K_eqb k' k.
Proof.
  intros k t m k'. induction m as [|[k0 l] m IH]; simpl.
  - destruct (K_eqb k' k); reflexivity.
  - destruct (K_eqb k k0) eqn:E; simpl.
    + apply K_eqb_spec in E. subst k0.
      destruct (K_eqb k' k); [reflexivity | rewrite orb_false_r; reflexivity].
    + destruct (K_eqb k' k0); [reflexivity | exact IH].
Qed.

Lemma filter_filter_and : forall (A : Type) (f g : A -> bool) l,
  filter f (filter g l) = filter (fun x => g x && f x) l.
Proof.
  intros A f g l. induction l as [|x l IH]; simpl.
  - reflexivity.
  - destruct (g x); simpl; [destruct (f x)|]; rewrite ?IH; reflexivity.
Qed.

Lemma keys_fold : forall txs m,
  keys (fold_left (group_step K_eqb key_of) txs m) =
  keys m ++ filter (fun k => negb (has K_eqb k m))
                   (first_seen K_eqb (map key_of txs)).
Proof.
  induction txs as [|t txs IH]; intros m; simpl.
  - rewrite app_nil_r. reflexivity.
  - rewrite (group_step_push K_eqb K_eqb_spec), IH, keys_push.
    rewrite filter_filter_and.
    assert (E : forall k', K_eqb k' (key_of t) = true ->
                           has K_eqb k' m = has K_eqb (key_of t) m).
    { intros k' E. apply K_eqb_spec in E. subst k'. reflexivity. }
    destruct (has K_eqb (key_of t) m) eqn:H; simpl.
    + f_equal. apply filter_ext. intros k'. rewrite has_push.
      specialize (E k').
      destruct (K_eqb k' (key_of t)); simpl.
      * rewrite E by reflexivity. reflexivity.
      * rewrite orb_false_r. reflexivity.
    + rewrite <- app_assoc. simpl. do 2 f_equal.
      apply filter_ext. intros k'. rewrite has_push.
      destruct (K_eqb k' (key_of t)), (has K_eqb k' m); reflexivity.
Qed.

Lemma keys_group_by : forall txs,
  keys (group_by K_eqb key_of txs) = first_seen K_eqb (map key_of txs).
Proof.
  intros txs. unfold group_by. rewrite keys_fold. simpl.
  induction (first_seen K_eqb (map key_of txs)) as [|k l IH]; simpl.
  - reflexivity.
  - f_equal. exact IH.
Qed.

(** The grouping loop computes the declarative grouping. *)
Lemma group_by_spec : forall txs,
  group_by K_eqb key_of txs =
  map (fun k => (k, records_of K_eqb key_of k txs))
      (first_seen K_eqb (map key_of txs)).
Proof.
  intros txs. rewrite <- keys_group_by.
  destruct (group_by_grouped K_eqb K_eqb_spec key_of txs) as (_ & Hent & _).
  revert Hent. generalize (group_by K_eqb key_of txs). intros m Hent.
  induction m as [|[k l] m IH]; simpl.
  - reflexivity.
  - f_equal.
    + destruct (Hent k l (or_introl eq_refl)) as [_ ->]. reflexivity.
    + apply IH. intros k' l' H. apply Hent. right. exact H.
Qed.

Lemma report_spec : forall txs,
  report K_eqb key_of txs =
  sort by_profit_desc
       (map (fun k => summarise (k, records_of K_eqb key_of k txs))
            (first_seen K_eqb (map key_of txs))).
Proof.
  intros txs. unfold report. rewrite collect_map, group_by_spec, map_map.
  reflexivity.
Qed.
End GroupBySpec.

(** X1: each report is the sorted list of one element per distinct key, the
    keys taken in the order of their first appearance in the (filtered)
    input and each element computed from the records that carry its key, in
    input order. *)
Theorem X1_reports_group_by_first_appearance :
  (forall txs,
     getUserStatistics txs =
     sort by_profit_desc
          (map (fun k => summarise (k, records_of String.eqb user_key k txs))
               (first_seen String.eqb (map user_key txs)))) /\
  (forall all,
     getRivenStatistics all =
     sort by_profit_desc
          (map (fun k => summarise
                           (k, records_of nullable_eqb item_name k
                                 (filter is_riven all)))
               (first_seen nullable_eqb
                           (map item_name (filter is_riven all))))).
Proof.
  split.
  - intros txs. rewrite getUserStatistics_report.
    apply (report_spec String.eqb String.eqb_eq).
  - intros all. rewrite getRivenStatistics_report.
    apply (report_spec nullable_eqb nullable_eqb_spec).
Qed.

Section Stability.
Context {K : Type}.

Lemma insert_same_profit : forall p (x : stat K) l,
  filter (fun g => profit g =? p) (insert by_profit_desc x l) =
  filter (fun g => profit g =? p) (x :: l).
Proof.
  intros p x l. induction l as [|y l IH].
  - reflexivity.
  - cbn [insert]. destruct (0 <? by_profit_desc x y) eqn:E.
    + rewrite by_profit_desc_pos in E.
      cbn [filter] in *. rewrite IH.
      destruct (profit x =? p) eqn:Ex, (profit y =? p) eqn:Ey;
        try reflexivity.
      rewrite (eqb_not_ltb _ _ _ Ex Ey) in E. discriminate.
    + reflexivity.
Qed.

(** The sort keeps the elements of equal profit in the order they had. *)
Lemma sort_same_profit : forall p (l : list (stat K)),
  filter (fun g => profit g =? p) (sort by_profit_desc l) =
  filter (fun g => profit g =? p) l.
Proof.
  intros p l. induction l as [|x l IH].
  - reflexivity.
  - cbn [sort fold_right]. fold (sort by_profit_desc l).
    rewrite insert_same_profit. cbn [filter]. rewrite IH. reflexivity.
Qed.

Lemma StronglySorted_nth : forall (l : list (stat K)) i j a b,
  StronglySorted profit_ge l -> (i < j)%nat ->
  nth_error l i = Some a -> nth_error l j = Some b -> profit_ge a b.
Proof.
  intros l i j a b H. revert i j.
  induction H as [|x l Hl IH Hx]; intros i j Hij Ha Hb.
  - destruct i; discriminate.
  - destruct j as [|j]; [lia|]. cbn [nth_error] in Hb.
    destruct i as [|i]; cbn [nth_error] in Ha.
    + inversion Ha; subst x. rewrite Forall_forall in Hx. apply Hx.
      apply (nth_error_In _ _ Hb).
    + apply (IH i j); [lia | assumption | assumption].
Qed.

Lemma sort_strongly_sorted : forall l : list (stat K),
  no_nan_profit (sort by_profit_desc l) ->
  StronglySorted profit_ge (sort by_profit_desc l).
Proof.
  intros l H. apply Sorted_StronglySorted.
  - intros a b c Hab Hbc. unfold profit_ge in *.
    apply (leb_trans _ (profit b)); assumption.
  - apply sorted_of_sort. exact H.
Qed.

Lemma trades_ge_length : forall l : list (stat K),
  Forall (fun g => (1 <= number_of_trades g)%nat) l ->
  (List.length l <= list_sum (map number_of_trades l))%nat.
Proof.
  intros l H. induction H as [|g l Hg Hl IH]; simpl; lia.
Qed.
End Stability.

(** X2: ties are broken by first appearance.  When no profit of a report is
    NaN, for every number [p] the elements of the report whose profit
    equals [p] stand in the order in which their keys first appear in the
    (filtered) input. *)
Theorem X2_ties_in_order_of_first_appearance :
  (forall txs,
     no_nan_profit (getUserStatistics txs) ->
     forall p,
       filter (fun g => profit g =? p) (getUserStatistics txs) =
       filter (fun g => profit g =? p)
              (map (fun k => summarise (k, records_of String.eqb user_key k txs))
                   (first_seen String.eqb (map user_key txs)))) /\
  (forall all,
     no_nan_profit (getRivenStatistics all) ->
     forall p,
       filter (fun g => profit g =? p) (getRivenStatistics all) =
       filter (fun g => profit g =? p)
              (map (fun k => summarise
                               (k, records_of nullable_eqb item_name k
                                     (filter is_riven all)))
                   (first_seen nullable_eqb
                               (map item_name (filter is_riven all))))).
Proof.
  split.
  - intros txs _ p. rewrite getUserStatistics_report.
    rewrite (report_spec String.eqb String.eqb_eq).
    apply sort_same_profit.
  - intros all _ p. rewrite getRivenStatistics_report.
    rewrite (report_spec nullable_eqb nullable_eqb_spec).
    apply sort_same_profit.
Qed.

(** "A" and "C" both have profit 10 and "A" comes first in the input. *)
Lemma X2_ties_in_order_of_first_appearance_witness :
  let txs := [ mk_tx (Some "A") None None (Some "sale") 10 1;
               mk_tx (Some "B") None None (Some "sale") 20 1;
               mk_tx (Some "C") None None (Some "sale") 10 1 ] in
  map key (getUserStatistics txs) = ["B"; "A"; "C"] /\
  filter (fun g => profit g =? 10) (getUserStatistics txs) =
    [ mk_stat "A" 10 10 0 1 0 1 1; mk_stat "C" 10 10 0 1 0 1 1 ].
Proof.
  cbv zeta. split; [reflexivity|].
  apply (proj1 X2_ties_in_order_of_first_appearance
           [ mk_tx (Some "A") None None (Some "sale") 10 1;
             mk_tx (Some "B") None None (Some "sale") 20 1;
             mk_tx (Some "C") None None (Some "sale") 10 1 ]).
  repeat constructor.
Defined.

Lemma filter_nil_iff : forall (A : Type) (f : A -> bool) l,
  filter f l = [] <-> (forall x, In x l -> f x = false).
Proof.
  intros A f l. induction l as [|x l IH]; simpl.
  - split; [intros _ y [] | reflexivity].
  - destruct (f x) eqn:E.
    + split; [discriminate|]. intros H.
      specialize (H x (or_introl eq_refl)). congruence.
    + rewrite IH. split.
      * intros H y [<-|Hy]; [exact E | apply H; exact Hy].
      * intros H y Hy. apply H. right. exact Hy.
Qed.

(** X3: the by-actor report is empty exactly when there is no record, and
    the by-subject report exactly when no record is a riven one. *)
Theorem X3_empty_report :
  (forall txs, getUserStatistics txs = [] <-> txs = []) /\
  (forall all, getRivenStatistics all = [] <->
               (forall t, In t all -> is_riven t = false)).
Proof.
  split.
  - intros txs. split.
    + intros H.
      pose proof (report_trades String.eqb String.eqb_eq user_key txs) as T.
      rewrite <- getUserStatistics_report, H in T. simpl in T.
      destruct txs; [reflexivity | discriminate].
    + intros ->. reflexivity.
  - intros all. rewrite <- filter_nil_iff. split.
    + intros H.
      pose proof (report_trades nullable_eqb nullable_eqb_spec item_name
                    (filter is_riven all)) as T.
      rewrite <- getRivenStatistics_report, H in T. simpl in T.
      destruct (filter is_riven all); [reflexivity | discriminate].
    + intros H. unfold getRivenStatistics. rewrite H. reflexivity.
Qed.

(** X4: the keys of a report are the keys of the records: a key is in the
    by-actor report exactly when some record has that actor (after the
    "Unknown" default), and in the by-subject report exactly when some riven
    record has that item name. *)
Theorem X4_report_keys :
  (forall txs k,
     In k (map key (getUserStatistics txs)) <->
     exists t, In t txs /\ user_key t = k) /\
  (forall all k,
     In k (map key (getRivenStatistics all)) <->
     exists t, In t all /\ is_riven t = true /\ item_name t = k).
Proof.
  split.
  - intros txs k. rewrite getUserStatistics_report.
    rewrite (report_keys String.eqb String.eqb_eq), in_map_iff.
    split; intros [t H]; exists t; tauto.
  - intros all k. rewrite getRivenStatistics_report.
    rewrite (report_keys nullable_eqb nullable_eqb_spec), in_map_iff.
    split; intros [t H]; exists t; rewrite filter_In in *; tauto.
Qed.

(** X5: no group is empty: every element of a report counts at least one
    trade, so a report has at most as many elements as there are records. *)
Theorem X5_no_empty_group : forall txs,
  (Forall (fun g => (1 <= number_of_trades g)%nat) (getUserStatistics txs) /\
   (List.length (getUserStatistics txs) <= List.length txs)%nat) /\
  (Forall (fun g => (1 <= number_of_trades g)%nat) (getRivenStatistics txs) /\
   (List.length (getRivenStatistics txs) <= List.length txs)%nat).
Proof.
  intros txs.
  assert (U : Forall (fun g => (1 <= number_of_trades g)%nat)
                     (getUserStatistics txs)).
  { by_group_shape. rewrite trades_summarise.
    destruct (records_of String.eqb user_key k txs) eqn:E; [|simpl; lia].
    apply (records_of_nil_iff String.eqb String.eqb_eq) in E. contradiction. }
  assert (R : Forall (fun g => (1 <= number_of_trades g)%nat)
                     (getRivenStatistics txs)).
  { by_group_shape. rewrite trades_summarise.
    destruct (records_of nullable_eqb item_name k (filter is_riven txs)) eqn:E;
      [|simpl; lia].
    apply (records_of_nil_iff nullable_eqb nullable_eqb_spec) in E.
    contradiction. }
  split; split; try assumption.
  - apply trades_ge_length in U.
    rewrite getUserStatistics_report in U.
    rewrite (report_trades String.eqb String.eqb_eq) in U. exact U.
  - apply trades_ge_length in R.
    rewrite getRivenStatistics_report in R |- *.
    rewrite (report_trades nullable_eqb nullable_eqb_spec) in R.
    pose proof (filter_length_le is_riven txs). lia.
Qed.

(** X6: when no profit of a report is NaN, an element never has a smaller
    profit than an element that stands anywhere after it; in particular the
    first element has the greatest profit of all. *)
Theorem X6_profit_order_at_any_distance :
  (forall txs,
     no_nan_profit (getUserStatistics txs) ->
     forall i j a b,
       (i < j)%nat ->
       nth_error (getUserStatistics txs) i = Some a ->
       nth_error (getUserStatistics txs) j = Some b ->
       (profit b <=? profit a) = true) /\
  (forall all,
     no_nan_profit (getRivenStatistics all) ->
     forall i j a b,
       (i < j)%nat ->
       nth_error (getRivenStatistics all) i = Some a ->
       nth_error (getRivenStatistics all) j = Some b ->
       (profit b <=? profit a) = true).
Proof.
  split; intros txs N i j a b Hij Ha Hb.
  - apply (StronglySorted_nth (getUserStatistics txs) i j a b);
      try assumption.
    apply sort_strongly_sorted. exact N.
  - apply (StronglySorted_nth (getRivenStatistics txs) i j a b);
      try assumption.
    apply sort_strongly_sorted. exact N.
Qed.

(** Three actors: the first and the last element of the report. *)
Lemma X6_profit_order_at_any_distance_witness :
  let txs := [ mk_tx (Some "A") None None (Some "sale") 10 1;
               mk_tx (Some "B") None None (Some "sale") 30 1;
               mk_tx (Some "C") None None (Some "sale") 20 1 ] in
  let first := mk_stat "B" 30 30 0 1 0 1 1 in
  let last := mk_stat "A" 10 10 0 1 0 1 1 in
  nth_error (getUserStatistics txs) 0 = Some first /\
  nth_error (getUserStatistics txs) 2 = Some last /\
  (profit last <=? profit first) = true.
Proof.
  cbv zeta. split; [reflexivity|]. split; [reflexivity|].
  apply (proj1 X6_profit_order_at_any_distance
           [ mk_tx (Some "A") None None (Some "sale") 10 1;
             mk_tx (Some "B") None None (Some "sale") 30 1;
             mk_tx (Some "C") None None (Some "sale") 20 1 ]
           ltac:(repeat constructor) 0%nat 2%nat
           (mk_stat "B" 30 30 0 1 0 1 1)
           (mk_stat "A" 10 10 0 1 0 1 1)
           (le_S _ _ (le_n _)) eq_refl eq_refl).
Defined.

(** * One key of a report against the records that carry it *)

Section KeyFacts.
Context {K : Type}.
Variable K_eqb : K -> K -> bool.
Hypothesis K_eqb_spec : forall a b, K_eqb a b = true <-> a = b.
Variable key_of : tx -> K.

Lemma group_of_report_cases : forall txs k,
  group_of K_eqb k (report K_eqb key_of txs) =
  match records_of K_eqb key_of k txs with
  | [] => None
  | _ :: _ => Some (summarise (k, records_of K_eqb key_of k txs))
  end.
Proof.
  intros txs k. destruct (records_of K_eqb key_of k txs) as [|r rs] eqn:E.
  - apply (group_of_report_absent K_eqb K_eqb_spec).
    apply (records_of_nil_iff K_eqb K_eqb_spec). exact E.
  - rewrite <- E. apply (group_of_report K_eqb K_eqb_spec).
    apply (records_of_In K_eqb K_eqb_spec). rewrite E. discriminate.
Qed.

Lemma group_of_same_records : forall txs txs' k,
  records_of K_eqb key_of k txs = records_of K_eqb key_of k txs' ->
  group_of K_eqb k (report K_eqb key_of txs) =
  group_of K_eqb k (report K_eqb key_of txs').
Proof.
  intros txs txs' k H. rewrite !group_of_report_cases, H. reflexivity.
Qed.

(** The group of a record that comes last in the input, against the report
    of the input without it. *)
Lemma report_append_effect : forall l t,
  exists g',
    group_of K_eqb (key_of t) (report K_eqb key_of (l ++ [t])) = Some g' /\
    let before := group_of K_eqb (key_of t) (report K_eqb key_of l) in
    revenue g' =
      (if is_sale t then revenue_or0 before + price t
       else revenue_or0 before) /\
    expense g' =
      (if is_purchase t then expense_or0 before + price t
       else expense_or0 before) /\
    purchases g' =
      (if is_purchase t then purchases_or0 before + quantity t
       else purchases_or0 before) /\
    sales g' =
      (if is_sale t then sales_or0 before + quantity t
       else sales_or0 before) /\
    number_of_trades g' = S (trades_or0 before).
Proof.
  intros l t.
  exists (summarise (key_of t, records_of K_eqb key_of (key_of t) (l ++ [t]))).
  split.
  - apply (group_of_report K_eqb K_eqb_spec).
    rewrite map_app, in_app_iff. right. left. reflexivity.
  - cbv zeta.
    destruct (group_of_counters K_eqb K_eqb_spec key_of l (key_of t))
      as (-> & -> & -> & -> & ->).
    rewrite (records_of_snoc K_eqb key_of).
    rewrite (K_eqb_refl K_eqb K_eqb_spec).
    unfold summarise. rewrite fold_left_app.
    cbn [fold_left revenue expense purchases sales number_of_trades].
    destruct (tally_fields
                (fold_left tally (records_of K_eqb key_of (key_of t) l) totals0)
                t) as (-> & -> & -> & ->).
    rewrite length_app. cbn [List.length]. repeat split. lia.
Qed.
End KeyFacts.

(** X8: groups do not interfere.  What a report holds for a key depends only
    on the records that carry this key: two inputs with the same records for
    a key give the same element, or both none, for it. *)
Theorem X8_groups_do_not_interfere :
  (forall txs txs' k,
     records_of String.eqb user_key k txs =
     records_of String.eqb user_key k txs' ->
     group_of String.eqb k (getUserStatistics txs) =
     group_of String.eqb k (getUserStatistics txs')) /\
  (forall all all' k,
     filter (fun t => is_riven t && nullable_eqb (item_name t) k) all =
     filter (fun t => is_riven t && nullable_eqb (item_name t) k) all' ->
     group_of nullable_eqb k (getRivenStatistics all) =
     group_of nullable_eqb k (getRivenStatistics all')).
Proof.
  split.
  - intros txs txs' k H. rewrite !getUserStatistics_report.
    apply (group_of_same_records String.eqb String.eqb_eq). exact H.
  - intros all all' k H. rewrite !getRivenStatistics_report.
    apply (group_of_same_records nullable_eqb nullable_eqb_spec).
    rewrite !records_of_filter. exact H.
Qed.

(** The records of "B" differ, those of "A" do not: the element of "A" is
    the same. *)
Lemma X8_groups_do_not_interfere_witness :
  let a := mk_tx (Some "A") None None (Some "sale") 100 1 in
  let b := mk_tx (Some "B") None None (Some "sale") 50 2 in
  let b' := mk_tx (Some "B") None None (Some "purchase") 500 7 in
  group_of String.eqb "A" (getUserStatistics [b; a]) =
  group_of String.eqb "A" (getUserStatistics [a; b'; b]).
Proof.
  cbv zeta. apply (proj1 X8_groups_do_not_interfere). reflexivity.
Defined.

(** X10: what a record adds when it comes last.  Against the report of the
    input without it, the group of its key has one more trade; a sale adds
    its price to the revenue and its quantity to the sales, a purchase adds
    its price to the expense and its quantity to the purchases (a group that
    did not exist starting from 0), and the other counters of the group are
    as before.  In the by-subject report this holds of a riven record. *)
Theorem X10_effect_of_one_record :
  (forall l t,
     exists g',
       group_of String.eqb (user_key t) (getUserStatistics (l ++ [t])) =
         Some g' /\
       let before := group_of String.eqb (user_key t) (getUserStatistics l) in
       revenue g' =
         (if is_sale t then revenue_or0 before + price t
          else revenue_or0 before) /\
       expense g' =
         (if is_purchase t then expense_or0 before + price t
          else expense_or0 before) /\
       purchases g' =
         (if is_purchase t then purchases_or0 before + quantity t
          else purchases_or0 before) /\
       sales g' =
         (if is_sale t then sales_or0 before + quantity t
          else sales_or0 before) /\
       number_of_trades g' = S (trades_or0 before)) /\
  (forall l t,
     is_riven t = true ->
     exists g',
       group_of nullable_eqb (item_name t) (getRivenStatistics (l ++ [t])) =
         Some g' /\
       let before :=
         group_of nullable_eqb (item_name t) (getRivenStatistics l) in
       revenue g' =
         (if is_sale t then revenue_or0 before + price t
          else revenue_or0 before) /\
       expense g' =
         (if is_purchase t then expense_or0 before + price t
          else expense_or0 before) /\
       purchases g' =
         (if is_purchase t then purchases_or0 before + quantity t
          else purchases_or0 before) /\
       sales g' =
         (if is_sale t then sales_or0 before + quantity t
          else sales_or0 before) /\
       number_of_trades g' = S (trades_or0 before)).
Proof.
  split.
  - intros l t. rewrite !getUserStatistics_report.
    apply (report_append_effect String.eqb String.eqb_eq).
  - intros l t Hr. rewrite !getRivenStatistics_report.
    rewrite filter_app. cbn [filter]. rewrite Hr.
    apply (report_append_effect nullable_eqb nullable_eqb_spec).
Qed.

(** A riven purchase after a riven sale of the same name. *)
Lemma X10_effect_of_one_record_witness :
  let s := mk_tx (Some "A") (Some "riven") (Some "X") (Some "sale") 100 1 in
  let p := mk_tx (Some "B") (Some "riven") (Some "X") (Some "purchase") 30 2 in
  exists g',
    group_of nullable_eqb (Some "X") (getRivenStatistics ([s] ++ [p])) =
      Some g' /\
    revenue g' = 100 /\ expense g' = 30 /\ purchases g' = 2 /\ sales g' = 1 /\
    number_of_trades g' = 2%nat.
Proof.
  cbv zeta.
  destruct (proj2 X10_effect_of_one_record
              [mk_tx (Some "A") (Some "riven") (Some "X") (Some "sale") 100 1]
              (mk_tx (Some "B") (Some "riven") (Some "X") (Some "purchase") 30 2)
              eq_refl) as [g' [Hg Hc]].
  exists g'. split; [exact Hg | exact Hc].
Defined.

(** * The loop body as an update of the map *)

Section StepLookup.
Context {K : Type}.
Variable K_eqb : K -> K -> bool.
Hypothesis K_eqb_spec : forall a b, K_eqb a b = true <-> a = b.
Variable key_of : tx -> K.

Lemma get_push : forall k0 t m k,
  get K_eqb k (push K_eqb k0 t m) =
  if K_eqb k k0
  then Some (match get K_eqb k m with Some l => l ++ [t] | None => [t] end)
  else get K_eqb k m.
Proof.
  intros k0 t m k. induction m as [|[k' l] m IH]; cbn [push get].
  - destruct (K_eqb k k0); reflexivity.
  - destruct (K_eqb k0 k') eqn:E0; cbn [get].
    + apply K_eqb_spec in E0. subst k'.
      destruct (K_eqb k k0); reflexivity.
    + rewrite IH. destruct (K_eqb k k') eqn:E1; [|reflexivity].
      apply K_eqb_spec in E1. subst k'.
      destruct (K_eqb k k0) eqn:E2; [|reflexivity].
      apply K_eqb_spec in E2. subst k0.
      rewrite (K_eqb_refl K_eqb K_eqb_spec) in E0. discriminate.
Qed.

Lemma step_lookup : forall m t k,
  get K_eqb k (group_step K_eqb key_of m t) =
    (if K_eqb k (key_of t)
     then Some (match get K_eqb k m with Some l => l ++ [t] | None => [t] end)
     else get K_eqb k m) /\
  keys (group_step K_eqb key_of m t) =
    (if has K_eqb (key_of t) m then keys m else keys m ++ [key_of t]).
Proof.
  intros m t k. rewrite (group_step_push K_eqb K_eqb_spec). split.
  - apply get_push.
  - apply keys_push.
Qed.
End StepLookup.

(** X13: one turn of the grouping loop.  After it the map holds, under the
    key of the record, the records it held there followed by the new one
    (the new one alone when the key was not there); the entry of every other
    key is as before; and the order of the keys is kept, a new key coming
    last. *)
Theorem X13_grouping_step :
  (forall m t k,
     get String.eqb k (group_step String.eqb user_key m t) =
       (if String.eqb k (user_key t)
        then Some (match get String.eqb k m with
                   | Some l => l ++ [t]
                   | None => [t]
                   end)
        else get String.eqb k m) /\
     keys (group_step String.eqb user_key m t) =
       (if has String.eqb (user_key t) m
        then keys m else keys m ++ [user_key t])) /\
  (forall m t k,
     get nullable_eqb k (group_step nullable_eqb item_name m t) =
       (if nullable_eqb k (item_name t)
        then Some (match get nullable_eqb k m with
                   | Some l => l ++ [t]
                   | None => [t]
                   end)
        else get nullable_eqb k m) /\
     keys (group_step nullable_eqb item_name m t) =
       (if has nullable_eqb (item_name t) m
        then keys m else keys m ++ [item_name t])).
Proof.
  split; intros m t k.
  - apply (step_lookup String.eqb String.eqb_eq).
  - apply (step_lookup nullable_eqb nullable_eqb_spec).
Qed.

(** X15: the comparator of the sort agrees with the order of the profits for
    all binary64 numbers, rounding, overflow, underflow and NaN included:
    [b.profit - a.profit] is greater than 0 exactly when the profit of [a]
    is less than the profit of [b], and less than 0 exactly when the profit
    of [b] is less than the profit of [a]. *)
Theorem X15_comparator_sign : forall (K : Type) (a b : stat K),
  (0 <? by_profit_desc a b) = (profit a <? profit b) /\
  (by_profit_desc a b <? 0) = (profit b <? profit a).
Proof.
  intros K a b. unfold by_profit_desc. split.
  - apply sub_pos_ltb.
  - apply sub_neg_ltb.
Qed.
